(** * Portal coordinate and reachability engine

    A shallow embedding of the portal list utility: the storage layer
    ([sanitizePortal], [loadPortalsFromStorage], [initializePortals]), the
    math helpers ([convertCoords], [distance3D]), the three derivation
    passes ([computePortalTravelLocation], [computeClosestPortal],
    [computeTargetPortal]), the displays ([updatePortalCardDisplays],
    [updateOutputCard]), the calculation dispatcher
    ([updateAllPortalCalculations]) and the list operations
    ([deletePortal], [resetPortals], [importPortalsFromFile],
    [movePortalUp], [movePortalDown], [addPortalFromTopInputs]).

    Numbers.  The engine computes on JavaScript numbers, which are IEEE 754
    binary64 values: they are embedded as [spec_float] with the operations
    of the Standard Library's specification of binary floating point at
    precision 53 and exponent bound 1024, so rounding, overflow to
    [Infinity], underflow, signed zeros and [NaN] are those of the code.
    The storage layer does no arithmetic; there a finite number is kept as
    the rational it denotes. *)

From Stdlib Require Import ZArith QArith Qround Qabs Bool List String Lia.
From Stdlib Require Import Qpower Lqa Permutation Zpower SpecFloat.
Import ListNotations.

Local Open Scope Q_scope.
Local Open Scope string_scope.

Set Implicit Arguments.

(** ** Numbers *)

(** A JavaScript number. *)
Definition float : Type := spec_float.

Definition prec : Z := 53.
Definition emax : Z := 1024.

Definition fadd : float -> float -> float := SFadd prec emax.
Definition fsub : float -> float -> float := SFsub prec emax.
Definition fmul : float -> float -> float := SFmul prec emax.
Definition fdiv : float -> float -> float := SFdiv prec emax.

(** The operators [<], [>] and [<=]: [false] as soon as one side is
    [NaN]. *)
Definition fltb : float -> float -> bool := SFltb.
Definition fgtb (a b : float) : bool := SFltb b a.
Definition fleb : float -> float -> bool := SFleb.

Declare Scope js_scope.
Delimit Scope js_scope with js.
Infix "+" := fadd : js_scope.
Infix "-" := fsub : js_scope.
Infix "*" := fmul : js_scope.
Infix "/" := fdiv : js_scope.
Infix "<?" := fltb : js_scope.
Infix ">?" := fgtb : js_scope.
Infix "<=?" := fleb : js_scope.

(** The number an integer literal denotes. *)
Definition fl (n : Z) : float := binary_normalize prec emax n 0 false.
Arguments fl n%_Z.

(** The number a decimal literal [n / d] denotes, for the literals of up
    to fifteen digits used here: the binary64 value nearest to the
    quotient. *)
Definition dec (n d : Z) : float := fdiv (fl n) (fl d).
Arguments dec (n d)%_Z.

Definition Infinity : float := S754_infinity false.

(** [Math.abs] and [Math.sqrt]. *)
Definition Math_abs : float -> float := SFabs.
Definition Math_sqrt : float -> float := SFsqrt prec emax.

(** The number that is exactly the positive integer [p], with sign [s];
    it is the binary64 value of that integer when [p] has at most 53
    binary digits, as the integers below always have for a binary64
    argument of [Math.floor]. *)
Definition exact_integer (s : bool) (p : positive) : float :=
  match (prec - Zpos (digits2_pos p))%Z with
  | Zpos j => S754_finite s (Pos.iter xO p j) (Zneg j)
  | _ => S754_finite s p 0
  end.

(** [Math.floor]: a number without fractional bits, a zero, an infinity
    and [NaN] are returned as they are; otherwise the mantissa is divided
    by the power of two of the exponent, rounding down ([Z.div] does), and
    a quotient of 0 keeps the sign of the argument, which is then
    positive. *)
Definition Math_floor (x : float) : float :=
  match x with
  | S754_finite s m (Zneg a) =>
      match ((if s then Zneg m else Zpos m) / Zpos (2 ^ a))%Z with
      | Z0 => S754_zero s
      | Zpos p => exact_integer false p
      | Zneg p => exact_integer true p
      end
  | _ => x
  end.

(** The rational a finite number denotes (0 for the others): the
    mantissa, with the sign, times the power of two of the exponent. *)
Definition SF2Q (x : float) : Q :=
  match x with
  | S754_finite s m e => inject_Z (if s then Zneg m else Zpos m) * 2 ^ e
  | _ => 0
  end.

(** [Number.isFinite] and [Number.isNaN] on a number. *)
Definition is_finite (x : float) : bool :=
  match x with
  | S754_zero _ | S754_finite _ _ _ => true
  | _ => false
  end.

Definition is_nan (x : float) : bool :=
  match x with
  | S754_nan => true
  | _ => false
  end.

(** ** Config and data model *)

Definition STORAGE_KEY : string := "portalListData_v1".
Definition WORLD_OVERWORLD : string := "Overworld".
Definition WORLD_NETHER : string := "Nether".

(** A coordinate is a number or unset ([null]). *)
Definition coord : Type := option float.

Record travel_t : Type := mkTravel {
  travel_x : coord;
  travel_y : coord;
  travel_z : coord;
  travel_world : option string
}.

Record closest_t : Type := mkClosest {
  closest_name : option string;
  closest_distance : option float
}.

(** The distance of a target: [null], the string ["Cannot Reach"], or a
    number. *)
Inductive target_distance : Type :=
| TNull
| CannotReach
| TDist (d : float).

Record target_t : Type := mkTarget {
  target_name : option string;
  target_dist : target_distance
}.

Record portal : Type := mkPortal {
  name : string;
  destination : string;
  x : coord;
  y : coord;
  z : coord;
  world : string;
  travel : travel_t;
  closest : closest_t;
  target : target_t
}.

Definition travel_unset : travel_t := mkTravel None None None None.
Definition closest_unset : closest_t := mkClosest None None.
Definition target_unset : target_t := mkTarget None TNull.

Definition set_travel (p : portal) (t : travel_t) : portal :=
  mkPortal (name p) (destination p) (x p) (y p) (z p) (world p)
           t (closest p) (target p).

Definition set_closest (p : portal) (c : closest_t) : portal :=
  mkPortal (name p) (destination p) (x p) (y p) (z p) (world p)
           (travel p) c (target p).

Definition set_target (p : portal) (t : target_t) : portal :=
  mkPortal (name p) (destination p) (x p) (y p) (z p) (world p)
           (travel p) (closest p) t.

(** ** Math helpers *)

Record xz : Type := mkXZ { xz_x : coord; xz_z : coord }.

Definition convertCoords (x z : coord) (fromWorld toWorld : string) : xz :=
  match x, z with
  | Some x, Some z =>
      if (fromWorld =? WORLD_OVERWORLD) && (toWorld =? WORLD_NETHER) then
        mkXZ (Some (Math_floor (x / fl 8)%js))
             (Some (Math_floor (z / fl 8)%js))
      else if (fromWorld =? WORLD_NETHER) && (toWorld =? WORLD_OVERWORLD) then
        mkXZ (Some (x * fl 8)%js) (Some (z * fl 8)%js)
      else mkXZ (Some x) (Some z)
  | _, _ => mkXZ None None
  end.

Definition distance3D (x1 y1 z1 x2 y2 z2 : coord) : option float :=
  match x1, y1, z1, x2, y2, z2 with
  | Some x1, Some y1, Some z1, Some x2, Some y2, Some z2 =>
      let dx := (x2 - x1)%js in
      let dy := (y2 - y1)%js in
      let dz := (z2 - z1)%js in
      Some (Math_sqrt (dx * dx + dy * dy + dz * dz)%js)
  | _, _, _, _, _, _ => None
  end.

(** ** Calculations per portal *)

(** [a === b] for a world tag that may be [null] and one that is a string. *)
Definition world_is (a : option string) (b : string) : bool :=
  match a with
  | Some a => a =? b
  | None => false
  end.

(** [(w === WORLD_NETHER) ? 16 : 128] *)
Definition maxRange (w : option string) : float :=
  if world_is w WORLD_NETHER then fl 16 else fl 128.

Definition computePortalTravelLocation (p : portal) : portal :=
  match x p, y p, z p with
  | Some _, Some _, Some _ =>
      let targetWorld :=
        if world p =? WORLD_OVERWORLD then WORLD_NETHER else WORLD_OVERWORLD in
      let converted := convertCoords (x p) (z p) (world p) targetWorld in
      set_travel p (mkTravel (xz_x converted) (y p) (xz_z converted)
                             (Some targetWorld))
  | _, _, _ => set_travel p travel_unset
  end.

(** The state of the search loop: [best] and [bestDist]. *)
Definition search_state : Type := (option portal * float)%type.

(** One call of the callback of [portals.forEach] in
    [computeClosestPortal], on element [other] at index [i]; [tx] and [tz]
    are [travel.x] and [travel.z], which the guard has found set. *)
Definition closest_step (tx : float) (ty : coord) (tz : float)
    (targetWorld : option string) (index : nat)
    (st : search_state) (other : portal) (i : nat) : search_state :=
  if Nat.eqb i index then st
  else if negb (world_is targetWorld (world other)) then st
  else
    match x other, z other with
    | Some ox, Some oz =>
        let dx := Math_abs (ox - tx)%js in
        let dz := Math_abs (oz - tz)%js in
        if (dx >? maxRange targetWorld)%js || (dz >? maxRange targetWorld)%js
        then st
        else
          match distance3D (Some tx) ty (Some tz)
                           (Some ox) (y other) (Some oz) with
          | None => st
          | Some d3 => if (d3 <? snd st)%js then (Some other, d3) else st
          end
    | _, _ => st
    end.

Fixpoint closest_loop (tx : float) (ty : coord) (tz : float)
    (targetWorld : option string) (index : nat)
    (others : list portal) (i : nat) (st : search_state) : search_state :=
  match others with
  | [] => st
  | other :: rest =>
      closest_loop tx ty tz targetWorld index rest (S i)
                   (closest_step tx ty tz targetWorld index st other i)
  end.

(** [best.name || "(unnamed)"] *)
Definition name_or_unnamed (p : portal) : string :=
  if name p =? "" then "(unnamed)" else name p.

(** The value [computeClosestPortal(portal, index)] assigns to
    [portal.closest], reading the list [portals]. *)
Definition computeClosestPortal (portals : list portal) (p : portal)
    (index : nat) : closest_t :=
  match travel_x (travel p), travel_z (travel p) with
  | Some tx, Some tz =>
      let targetWorld := travel_world (travel p) in
      match closest_loop tx (travel_y (travel p)) tz targetWorld index
                         portals 0 (None, Infinity) with
      | (Some best, bestDist) =>
          mkClosest (Some (name_or_unnamed best)) (Some bestDist)
      | (None, _) => closest_unset
      end
  | _, _ => closest_unset
  end.

(** The value [computeTargetPortal(portal)] assigns to [portal.target],
    reading the list [portals]. *)
Definition computeTargetPortal (portals : list portal) (p : portal)
    : target_t :=
  if destination p =? "" then target_unset
  else
    match find (fun q => name q =? destination p) portals with
    | None => target_unset
    | Some target =>
        match x target, z target with
        | Some gx, Some gz =>
            match travel_x (travel p), travel_z (travel p) with
            | Some tx, Some tz =>
                if negb (world_is (travel_world (travel p)) (world target))
                then mkTarget (Some (name target)) CannotReach
                else
                  let dx := Math_abs (gx - tx)%js in
                  let dz := Math_abs (gz - tz)%js in
                  let range := maxRange (travel_world (travel p)) in
                  if (dx >? range)%js || (dz >? range)%js
                  then mkTarget (Some (name target)) CannotReach
                  else
                    match distance3D (Some tx) (travel_y (travel p)) (Some tz)
                                     (Some gx) (y target) (Some gz) with
                    | Some d3 => mkTarget (Some (name target)) (TDist d3)
                    | None => mkTarget (Some (name target)) TNull
                    end
            | _, _ => mkTarget (Some (name target)) CannotReach
            end
        | _, _ => target_unset
        end
    end.

(** ** The derivation sweep *)

(** An element of the [portals] array: a portal record, or [null], which an
    imported array may hold and on which every property access throws. *)
Definition slot : Type := option portal.

(** How a statement completes: normally, or by a thrown [TypeError]. *)
Inductive completion : Type :=
| Normal
| Thrown.

(** [portals.forEach((portal) => computePortalTravelLocation(portal))]:
    records are rewritten in place, in list order; destructuring a [null]
    element throws and leaves the rest of the array unvisited. *)
Fixpoint travelPass (st : list slot) : list slot * completion :=
  match st with
  | [] => ([], Normal)
  | None :: rest => (None :: rest, Thrown)
  | Some p :: rest =>
      let (rest', c) := travelPass rest in
      (Some (computePortalTravelLocation p) :: rest', c)
  end.

(** The array read as a list of records; [None] when an element is
    [null]. *)
Fixpoint records (st : list slot) : option (list portal) :=
  match st with
  | [] => Some []
  | None :: _ => None
  | Some p :: rest =>
      match records rest with
      | Some ps => Some (p :: ps)
      | None => None
      end
  end.

(** [portals[i] = v], for [i] inside the array. *)
Fixpoint store (A : Type) (i : nat) (v : A) (l : list A) : list A :=
  match l, i with
  | [], _ => []
  | _ :: rest, O => v :: rest
  | a :: rest, S i' => a :: store i' v rest
  end.

(** [portals.forEach((portal, index) => body)] for a callback that rewrites
    the record at [index] in place: [n] elements remain to be visited from
    index [i] on, and each call reads the array as the earlier calls left
    it. *)
Fixpoint forEach_from (body : list portal -> portal -> nat -> portal)
    (n i : nat) (ps : list portal) : list portal :=
  match n with
  | O => ps
  | S n' =>
      match nth_error ps i with
      | Some p => forEach_from body n' (S i) (store i (body ps p i) ps)
      | None => ps
      end
  end.

Definition forEach (body : list portal -> portal -> nat -> portal)
    (ps : list portal) : list portal :=
  forEach_from body (List.length ps) 0 ps.

Definition closestPass : list portal -> list portal :=
  forEach (fun portals p index =>
             set_closest p (computeClosestPortal portals p index)).

Definition targetPass : list portal -> list portal :=
  forEach (fun portals p _ => set_target p (computeTargetPortal portals p)).

(** The derivation sweep: the three [forEach] passes at the head of the
    [try] block of [updateAllPortalCalculations].  The result is the array
    as the passes leave it and [Thrown] when one of the passes threw.
    Once the travel pass has completed no element is [null]
    ([travelPass_records]), so the later passes read records only. *)
Definition derivationSweep (st : list slot) : list slot * completion :=
  match travelPass st with
  | (st1, Thrown) => (st1, Thrown)
  | (st1, Normal) =>
      match records st1 with
      | Some ps => (map Some (targetPass (closestPass ps)), Normal)
      | None => (st1, Thrown)
      end
  end.

(** ** Portal card displays *)

(** The text of a span of a portal card, kept by its parts: the dashes,
    the travel location [x / y / z (world)], [name (Cannot Reach)], and
    [name (d.toFixed(2))]. *)
Inductive span : Type :=
| Dashes
| Location (x : float) (y z : coord) (w : option string)
| NameCannotReach (n : string)
| NameFixed2 (n : string) (d : float).

(** The three spans [createPortalCard] gives every card. *)
Record portal_card : Type := mkPortalCard {
  travel_loc : span;
  closest_info : span;
  target_info : span
}.

(** The callback of [cards.forEach] in [updatePortalCardDisplays], for a
    card whose portal is a record: the three spans are written in turn,
    and [toFixed] throws on a [null] distance. *)
Definition updateCard (p : portal) (card : portal_card)
    : portal_card * completion :=
  let travelText :=
    match travel_x (travel p) with
    | None => Dashes
    | Some tx =>
        Location tx (travel_y (travel p)) (travel_z (travel p))
                 (travel_world (travel p))
    end in
  let closestText :=
    match closest_name (closest p) with
    | None => Some Dashes
    | Some n =>
        match closest_distance (closest p) with
        | Some d => Some (NameFixed2 n d)
        | None => None
        end
    end in
  match closestText with
  | None =>
      (mkPortalCard travelText (closest_info card) (target_info card), Thrown)
  | Some closestText =>
      match target_name (target p), target_dist (target p) with
      | None, _ => (mkPortalCard travelText closestText Dashes, Normal)
      | Some n, CannotReach =>
          (mkPortalCard travelText closestText (NameCannotReach n), Normal)
      | Some n, TDist d =>
          (mkPortalCard travelText closestText (NameFixed2 n d), Normal)
      | Some n, TNull =>
          (mkPortalCard travelText closestText (target_info card), Thrown)
      end
  end.

(** [updatePortalCardDisplays], on the cards of the list container: the
    card at an index is refreshed from the portal at that index, a card
    without portal or with a [null] portal is skipped, and a throw leaves
    the later cards as they were. *)
Fixpoint updatePortalCardDisplays (portals : list slot)
    (cards : list portal_card) : list portal_card * completion :=
  match cards, portals with
  | [], _ => ([], Normal)
  | card :: cards', [] => (card :: cards', Normal)
  | card :: cards', None :: portals' =>
      let (rest, c) := updatePortalCardDisplays portals' cards' in
      (card :: rest, c)
  | card :: cards', Some p :: portals' =>
      match updateCard p card with
      | (card', Thrown) => (card' :: cards', Thrown)
      | (card', Normal) =>
          let (rest, c) := updatePortalCardDisplays portals' cards' in
          (card' :: rest, c)
      end
  end.

(** ** Output card *)

(** What is written to [textContent], kept by its parts. *)
Inductive text : Type :=
| Dash
| Plain (s : string)
| Shown (v : float)
| Fixed2 (d : float).

(** The eight elements of the output card. *)
Record output_card : Type := mkCard {
  outX : text;
  outY : text;
  outZ : text;
  outWorld : text;
  closestName : text;
  closestDistance : text;
  targetName : text;
  targetDistance : text
}.

Definition dashes : output_card :=
  mkCard Dash Dash Dash Dash Dash Dash Dash Dash.

(** The callback of [portals.forEach] in [updateOutputCard]; [cx] and [cz]
    are [converted.x] and [converted.z], [cy] is the [y] of the input. *)
Definition card_step (cx cy cz : float) (targetWorld : string)
    (st : search_state) (p : portal) : search_state :=
  if negb (world p =? targetWorld) then st
  else
    match x p, z p with
    | Some px, Some pz =>
        let maxRangeClosest :=
          if targetWorld =? WORLD_NETHER then fl 16 else fl 128 in
        let dx := Math_abs (px - cx)%js in
        let dz := Math_abs (pz - cz)%js in
        if (dx >? maxRangeClosest)%js || (dz >? maxRangeClosest)%js then st
        else
          match distance3D (Some cx) (Some cy) (Some cz)
                           (Some px) (y p) (Some pz) with
          | None => st
          | Some d3 => if (d3 <? snd st)%js then (Some p, d3) else st
          end
    | _, _ => st
    end.

Fixpoint card_loop (cx cy cz : float) (targetWorld : string)
    (portals : list portal) (st : search_state) : search_state :=
  match portals with
  | [] => st
  | p :: rest =>
      card_loop cx cy cz targetWorld rest
                (card_step cx cy cz targetWorld st p)
  end.

(** [updateOutputCard], with every element of the card present: [xin],
    [yin] and [zin] are [Number] of the three inputs, [None] when not
    finite; [old] is the card before the call.  With finite inputs the
    call throws on a [null] element of [portals], at the first property
    read in the search loop, after the four converted texts have been
    written; and it throws when [toFixed] is reached on a [null] distance,
    after the target name has been written.  The conversion of two set
    coordinates is set ([convertCoords_set]), so the branch that keeps
    [old] is never taken. *)
Definition updateOutputCard (xin yin zin : option float)
    (topWorld destName : string) (portals : list slot)
    (old : output_card) : output_card * completion :=
  match xin, yin, zin with
  | Some x0, Some y0, Some z0 =>
      let targetWorld :=
        if topWorld =? WORLD_OVERWORLD then WORLD_NETHER
        else WORLD_OVERWORLD in
      let converted := convertCoords (Some x0) (Some z0) topWorld targetWorld in
      match xz_x converted, xz_z converted with
      | Some cx, Some cz =>
          match records portals with
          | None =>
              (mkCard (Shown cx) (Shown y0) (Shown cz) (Plain targetWorld)
                      (closestName old) (closestDistance old)
                      (targetName old) (targetDistance old),
               Thrown)
          | Some portals =>
              let (best, bestDist) :=
                card_loop cx y0 cz targetWorld portals (None, Infinity) in
              let cName :=
                match best with
                | Some b => Plain (name_or_unnamed b)
                | None => Plain "Cannot Reach"
                end in
              let cDist :=
                match best with
                | Some _ => Fixed2 bestDist
                | None => Dash
                end in
              let card (tName tDist : text) :=
                mkCard (Shown cx) (Shown y0) (Shown cz) (Plain targetWorld)
                       cName cDist tName tDist in
              match find (fun p => name p =? destName) portals with
              | None => (card Dash Dash, Normal)
              | Some target =>
                  match x target, z target with
                  | Some gx, Some gz =>
                      if negb (world target =? targetWorld)
                      then (card (Plain (name target))
                                 (Plain "Cannot Reach"),
                            Normal)
                      else
                        let dxT := Math_abs (gx - cx)%js in
                        let dzT := Math_abs (gz - cz)%js in
                        let maxRangeTarget :=
                          if targetWorld =? WORLD_NETHER
                          then fl 16 else fl 128 in
                        if (dxT >? maxRangeTarget)%js
                           || (dzT >? maxRangeTarget)%js
                        then (card (Plain (name target))
                                   (Plain "Cannot Reach"),
                              Normal)
                        else
                          match distance3D (Some cx) (Some y0) (Some cz)
                                           (Some gx) (y target)
                                           (Some gz) with
                          | Some dT =>
                              (card (Plain (name target)) (Fixed2 dT),
                               Normal)
                          | None =>
                              (card (Plain (name target))
                                    (targetDistance old),
                               Thrown)
                          end
                  | _, _ => (card Dash Dash, Normal)
                  end
              end
          end
      | _, _ => (old, Normal)
      end
  | _, _, _ => (dashes, Normal)
  end.

(** ** Global calculation dispatcher *)

(** What [updateAllPortalCalculations] reads and writes besides the
    array: the cards of the list container, the three coordinate inputs
    ([Number] of each, [None] when not finite), [topWorld], the
    destination input and the output card. *)
Record page : Type := mkPage {
  page_cards : list portal_card;
  top_x : option float;
  top_y : option float;
  top_z : option float;
  top_world : string;
  top_destination : string;
  page_output : output_card
}.

Definition set_cards (pg : page) (cards : list portal_card) : page :=
  mkPage cards (top_x pg) (top_y pg) (top_z pg) (top_world pg)
         (top_destination pg) (page_output pg).

Definition set_output (pg : page) (card : output_card) : page :=
  mkPage (page_cards pg) (top_x pg) (top_y pg) (top_z pg) (top_world pg)
         (top_destination pg) card.

(** [updateAllPortalCalculations]: the derivation sweep, the card
    displays and the output card inside one [try] block, on a page that
    has the list container and the elements of the output card; the
    result is the array and the page as the call leaves them, and [Thrown]
    when the [catch] clause ran.  [savePortalsToStorage], between the
    sweep and the displays, catches its own errors and writes to storage
    only. *)
Definition updateAllPortalCalculations (st : list slot) (pg : page)
    : list slot * page * completion :=
  match derivationSweep st with
  | (st1, Thrown) => (st1, pg, Thrown)
  | (st1, Normal) =>
      match updatePortalCardDisplays st1 (page_cards pg) with
      | (cards, Thrown) => (st1, set_cards pg cards, Thrown)
      | (cards, Normal) =>
          let (card, c) :=
            updateOutputCard (top_x pg) (top_y pg) (top_z pg)
                             (top_world pg) (top_destination pg) st1
                             (page_output pg) in
          (st1, set_output (set_cards pg cards) card, c)
      end
  end.

(** ** Storage layer *)

(** JavaScript numbers: finite ones and the three special values. *)
Inductive number : Type :=
| Finite (q : Q)
| PosInfinity
| NegInfinity
| NaN.

#[local] Set Warnings "-register-all".

(** JavaScript values, as [JSON.parse] builds them (and [undefined]).  An
    object is the list of its own properties. *)
Inductive jsval : Type :=
| JUndefined
| JNull
| JBool (b : bool)
| JNum (n : number)
| JStr (s : string)
| JArr (elems : list jsval)
| JObj (props : list (string * jsval)).

Fixpoint lookup (k : string) (props : list (string * jsval)) : jsval :=
  match props with
  | [] => JUndefined
  | (k', v) :: rest => if k' =? k then v else lookup k rest
  end.

(** [v.k] for the property names the program reads, none of which is
    [length], an index or a property of a prototype: [None] stands for the
    [TypeError] thrown on [null] and [undefined]. *)
Definition get (v : jsval) (k : string) : option jsval :=
  match v with
  | JUndefined | JNull => None
  | JObj props => Some (lookup k props)
  | _ => Some JUndefined
  end.

(** [typeof v === "string"] *)
Definition is_string (v : jsval) : bool :=
  match v with
  | JStr _ => true
  | _ => false
  end.

(** [Number.isFinite(v)] *)
Definition Number_isFinite (v : jsval) : bool :=
  match v with
  | JNum (Finite _) => true
  | _ => false
  end.

(** [v === s] for a string [s]. *)
Definition is_the_string (v : jsval) (s : string) : bool :=
  match v with
  | JStr s' => s' =? s
  | _ => false
  end.

(** Truthiness, as [||] tests it. *)
Definition truthy (v : jsval) : bool :=
  match v with
  | JUndefined | JNull => false
  | JBool b => b
  | JNum (Finite q) => negb (Qeq_bool q 0)
  | JNum NaN => false
  | JNum _ => true
  | JStr s => negb (s =? "")
  | JArr _ | JObj _ => true
  end.

(** [a || b] *)
Definition or_else (a b : jsval) : jsval := if truthy a then a else b.

Definition blank_travel : jsval :=
  JObj [("x", JNull); ("y", JNull); ("z", JNull); ("world", JNull)].
Definition blank_closest : jsval :=
  JObj [("name", JNull); ("distance", JNull)].
Definition blank_target : jsval :=
  JObj [("name", JNull); ("distance", JNull)].

Definition createBlankPortal : jsval :=
  JObj [("name", JStr "");
        ("destination", JStr "");
        ("x", JNull);
        ("y", JNull);
        ("z", JNull);
        ("world", JStr WORLD_OVERWORLD);
        ("travel", blank_travel);
        ("closest", blank_closest);
        ("target", blank_target)].

(** Sequencing of property reads that may throw. *)
Notation "'let?' x ':=' e 'in' k" :=
  (match e with Some x => k | None => None end)
  (at level 10, x name, e at level 100, k at level 200).

(** The [try] block of [sanitizePortal]; [None] when it throws. *)
Definition sanitizePortal_try (raw : jsval) : option jsval :=
  let? name := get raw "name" in
  let? destination := get raw "destination" in
  let? x := get raw "x" in
  let? y := get raw "y" in
  let? z := get raw "z" in
  let? world := get raw "world" in
  let? travel := get raw "travel" in
  let? closest := get raw "closest" in
  let? target := get raw "target" in
  Some (JObj
    [("name", if is_string name then name else JStr "");
     ("destination", if is_string destination then destination else JStr "");
     ("x", if Number_isFinite x then x else JNull);
     ("y", if Number_isFinite y then y else JNull);
     ("z", if Number_isFinite z then z else JNull);
     ("world", if is_the_string world WORLD_NETHER
               then JStr WORLD_NETHER else JStr WORLD_OVERWORLD);
     ("travel", or_else travel blank_travel);
     ("closest", or_else closest blank_closest);
     ("target", or_else target blank_target)]).

Definition sanitizePortal (raw : jsval) : jsval :=
  match sanitizePortal_try raw with
  | Some p => p
  | None => createBlankPortal
  end.

(** What [JSON.parse] makes of a text: a [SyntaxError] or a value. *)
Inductive parsed : Type :=
| SyntaxError
| Value (v : jsval).

(** [loadPortalsFromStorage], on what [localStorage.getItem(STORAGE_KEY)]
    holds: nothing ([None]) or a text, given by its parse.  The empty text
    is falsy and does not parse either; both ways the result is [null]. *)
Definition loadPortalsFromStorage (item : option parsed)
    : option (list jsval) :=
  match item with
  | Some (Value (JArr elems)) => Some (map sanitizePortal elems)
  | _ => None
  end.

(** The value [initializePortals] gives [portals]. *)
Definition initializePortals (item : option parsed) : list jsval :=
  match loadPortalsFromStorage item with
  | Some (p :: rest) => p :: rest
  | _ => [createBlankPortal]
  end.

(** ** List operations *)

(** The list operations are embedded up to their call of
    [renderPortalList]: the result is the array the re-render is given.
    The re-render builds the cards anew and runs
    [updateAllPortalCalculations] on that array, which rewrites the
    derived fields of its records in place and moves, adds and removes
    none. *)

(** [l.splice(index, 1)] for an index that is not negative. *)
Fixpoint splice1 (A : Type) (index : nat) (l : list A) : list A :=
  match l, index with
  | [], _ => []
  | _ :: rest, O => rest
  | a :: rest, S i => a :: splice1 i rest
  end.

(** [deletePortal(index)]: the array after [splice] and the [push] of a
    blank portal into an empty array. *)
Definition deletePortal (index : nat) (portals : list jsval) : list jsval :=
  let portals := splice1 index portals in
  match portals with
  | [] => [createBlankPortal]
  | _ => portals
  end.

(** [resetPortals], given the answer to the confirmation dialog. *)
Definition resetPortals (confirmed : bool) (portals : list jsval)
    : list jsval :=
  if confirmed then [createBlankPortal] else portals.

(** The [onload] handler of [importPortalsFromFile], on the parse of the
    file's text: [portals] afterwards. *)
Definition importPortalsFromFile (content : parsed) (portals : list jsval)
    : list jsval :=
  match content with
  | Value (JArr imported) => imported
  | _ => portals
  end.

(** ** Moving and adding portals *)

(** These too are embedded up to their call of [renderPortalList]. *)

(** [l[i]]: [undefined] past the end of the array. *)
Definition array_get (l : list jsval) (i : nat) : jsval :=
  nth i l JUndefined.

(** [l[i] = v]: a write past the end extends the array; the indices it
    skips are holes, kept here as the [undefined] they read as. *)
Fixpoint array_set (i : nat) (v : jsval) (l : list jsval) : list jsval :=
  match i, l with
  | O, [] => [v]
  | O, _ :: rest => v :: rest
  | S i', [] => JUndefined :: array_set i' v []
  | S i', a :: rest => a :: array_set i' v rest
  end.

(** [movePortalUp(index)], the array after the swap: the right-hand side
    of the destructuring assignment is read first, then
    [portals[index - 1]] and [portals[index]] are written in that order. *)
Definition movePortalUp (index : nat) (portals : list jsval) : list jsval :=
  if (index <=? 0)%nat then portals
  else
    let first := array_get portals index in
    let second := array_get portals (index - 1) in
    array_set index second (array_set (index - 1) first portals).

(** [movePortalDown(index)], the array after the swap; the guard
    [index >= portals.length - 1] is [portals.length <= index + 1]. *)
Definition movePortalDown (index : nat) (portals : list jsval)
    : list jsval :=
  if (List.length portals <=? index + 1)%nat then portals
  else
    let first := array_get portals (index + 1) in
    let second := array_get portals index in
    array_set (index + 1) second (array_set index first portals).

(** The click handler of the "+ Add Portal" button. *)
Definition addBlankPortal (portals : list jsval) : list jsval :=
  portals ++ [createBlankPortal].

(** The coordinate [addPortalFromTopInputs] reads from an input: [null]
    for the empty text ([None]), [Number(text)] otherwise. *)
Definition input_coordinate (v : option number) : jsval :=
  match v with
  | None => JNull
  | Some n => JNum n
  end.

(** [addPortalFromTopInputs], on the trimmed name and destination, the
    three coordinate inputs and [topWorld]. *)
Definition addPortalFromTopInputs (name destination : string)
    (x y z : option number) (topWorld : string) (portals : list jsval)
    : list jsval :=
  portals ++
  [JObj [("name", JStr name);
         ("destination", JStr destination);
         ("x", input_coordinate x);
         ("y", input_coordinate y);
         ("z", input_coordinate z);
         ("world", JStr topWorld);
         ("travel", blank_travel);
         ("closest", blank_closest);
         ("target", blank_target)]].

(** ** Specification vocabulary *)

(** [r] is the floor of [q]: the integer with [r <= q < r + 1]. *)
Definition is_floor (q r : Q) : Prop :=
  exists k : Z, r == inject_Z k /\ inject_Z k <= q /\ q < inject_Z (k + 1).

(** [q] is an integer, an integer multiple of 8. *)
Definition is_integer (q : Q) : Prop := exists k : Z, q == inject_Z k.

Definition multiple_of_8 (q : Q) : Prop :=
  exists k : Z, q == inject_Z (8 * k).

(** The numbers on which a division or a multiplication by 8 is exact:
    zero, and the normal numbers, which have a mantissa of 53 digits, with
    an exponent between [lo] and [hi].  The magnitude of such a number is
    at least [2 ^ (lo + 52)] and less than [2 ^ (hi + 53)]. *)
Definition normal_between (lo hi : Z) (v : float) : bool :=
  match v with
  | S754_zero _ => true
  | S754_finite _ m e =>
      (Zpos (digits2_pos m) =? prec)%Z && (lo <=? e)%Z && (e <=? hi)%Z
  | _ => false
  end.

(** Division by 8 is exact from magnitude [2 ^ -1019] on, multiplication
    by 8 below magnitude [2 ^ 1021]. *)
Definition divides_exactly : float -> bool := normal_between (-1071) 971.
Definition multiplies_exactly : float -> bool := normal_between (-1074) 968.

(** The order of two finite numbers of the same sign, as [SFcompare]
    computes it on the exponents and the mantissas. *)
Definition lex (e1 : Z) (m1 : positive) (e2 : Z) (m2 : positive)
    : comparison :=
  match Z.compare e1 e2 with
  | Lt => Lt
  | Gt => Gt
  | Eq => Pos.compare m1 m2
  end.

(** A position is complete when its three coordinates are set. *)
Definition complete (p : portal) : bool :=
  match x p, y p, z p with
  | Some _, Some _, Some _ => true
  | _, _, _ => false
  end.

(** The search radius in world [W]. *)
Definition radius (W : string) : float :=
  if W =? WORLD_NETHER then fl 16 else fl 128.

(** [d] is not greater than [r], as the code tests it; for numbers other
    than [NaN] this is [d <= r] ([within_le]). *)
Definition within (d r : float) : bool := negb (d >? r)%js.

(** The distance between two points as the code computes it: every
    operation is the binary64 one. *)
Definition euclid (x1 y1 z1 x2 y2 z2 : float) : float :=
  let dx := (x2 - x1)%js in
  let dy := (y2 - y1)%js in
  let dz := (z2 - z1)%js in
  Math_sqrt (dx * dx + dy * dy + dz * dz)%js.

(** The square of the distance between two points as rationals. *)
Definition squared_distance (x1 y1 z1 x2 y2 z2 : float) : Q :=
  (SF2Q x2 - SF2Q x1) * (SF2Q x2 - SF2Q x1)
  + (SF2Q y2 - SF2Q y1) * (SF2Q y2 - SF2Q y1)
  + (SF2Q z2 - SF2Q z1) * (SF2Q z2 - SF2Q z1).

(** The closest-portal search in the words of the specification: the
    portal at index [i] is a candidate for the portal at [index], whose
    travel location is [(tx, ty, tz)] in world [W], when it is another
    portal, its own world is [W], its own position is complete and the
    computed [|x - tx|] and [|z - tz|] are within the radius; a candidate
    comes with its computed distance from the travel location. *)
Definition candidate (tx ty tz : float) (W : string) (index i : nat)
    (c : portal) : option float :=
  if Nat.eqb i index then None
  else if negb (world c =? W) then None
  else
    match x c, y c, z c with
    | Some cx, Some cy, Some cz =>
        if within (Math_abs (cx - tx)%js) (radius W)
           && within (Math_abs (cz - tz)%js) (radius W)
        then Some (euclid tx ty tz cx cy cz)
        else None
    | _, _, _ => None
    end.

(** The search state describes the candidates of a list: no candidate has
    a distance less than [Infinity] and nothing is kept, or [best] is the
    first candidate of least distance and [bestDist] that distance, which
    is less than [Infinity]. *)
Definition describes (tx ty tz : float) (W : string) (index : nat)
    (l : list portal) (st : search_state) : Prop :=
  match st with
  | (None, bestDist) =>
      bestDist = Infinity
      /\ forall i c d, nth_error l i = Some c ->
                       candidate tx ty tz W index i c = Some d ->
                       (d <? Infinity)%js = false
  | (Some best, bestDist) =>
      (bestDist <? Infinity)%js = true
      /\ exists i,
           nth_error l i = Some best
           /\ candidate tx ty tz W index i best = Some bestDist
           /\ forall j c d, nth_error l j = Some c ->
                            candidate tx ty tz W index j c = Some d ->
                            (d <? bestDist)%js = false
                            /\ ((j < i)%nat -> (d <=? bestDist)%js = false)
  end.


(** Well-formedness of a stored record, field by field. *)
Definition string_field (r : jsval) (k : string) : Prop :=
  exists s, get r k = Some (JStr s).

Definition coordinate_field (r : jsval) (k : string) : Prop :=
  get r k = Some JNull \/ exists q, get r k = Some (JNum (Finite q)).

Definition world_field (r : jsval) : Prop :=
  get r "world" = Some (JStr WORLD_OVERWORLD)
  \/ get r "world" = Some (JStr WORLD_NETHER).

Definition well_formed (r : jsval) : Prop :=
  string_field r "name" /\ string_field r "destination"
  /\ coordinate_field r "x" /\ coordinate_field r "y"
  /\ coordinate_field r "z" /\ world_field r.

(** ** The sweep as a function of the list *)

(** [f] applied to every portal with its index, counting from [i]. *)
Fixpoint mapi_from (f : nat -> portal -> portal) (i : nat)
    (l : list portal) : list portal :=
  match l with
  | [] => []
  | p :: rest => f i p :: mapi_from f (S i) rest
  end.

(** Two records with the same name, position and world: what the passes
    read of the other portals. *)
Definition same_position (a b : portal) : Prop :=
  name a = name b /\ x a = x b /\ y a = y b /\ z a = z b
  /\ world a = world b.

(** Two search states with the same minimum and the same name of the
    best portal. *)
Definition same_search (a b : search_state) : Prop :=
  snd a = snd b
  /\ match fst a, fst b with
     | Some p, Some q => name p = name q
     | None, None => True
     | _, _ => False
     end.

(** The derived fields, computed from the list alone: every travel
    location first, then closest and target of each portal against the
    list with its travel locations. *)
Definition derive (ps : list portal) : list portal :=
  let moved := map computePortalTravelLocation ps in
  mapi_from (fun i p =>
               set_target (set_closest p (computeClosestPortal moved p i))
                          (computeTargetPortal moved p))
            0 moved.

(** ** Vocabulary of the further properties *)

(** A coordinate input that a reload keeps: empty, or a finite number. *)
Definition kept_by_reload (v : option number) : Prop :=
  v = None \/ exists q, v = Some (Finite q).

(** A search state is [best] and [bestDist] both unset or both set, the
    distance then being less than [Infinity]. *)
Definition paired (st : search_state) : Prop :=
  match st with
  | (None, bestDist) => bestDist = Infinity
  | (Some _, bestDist) => (bestDist <? Infinity)%js = true
  end.

(** Two records with the same fields of the user: name, destination,
    position and world. *)
Definition same_input (a b : portal) : Prop :=
  same_position a b /\ destination a = destination b.

(** Two array elements that are both [null] or records with the same
    fields of the user. *)
Definition same_slot (a b : slot) : Prop :=
  match a, b with
  | Some q, Some p => same_input q p
  | None, None => True
  | _, _ => False
  end.

(** The world opposite to [w], as every caller of [convertCoords] works it
    out. *)
Definition opposite (w : string) : string :=
  if w =? WORLD_OVERWORLD then WORLD_NETHER else WORLD_OVERWORLD.

(** The cards [renderPortalList] has just built for an array: one for
    every element, the three spans showing dashes. *)
Definition fresh_cards (st : list slot) : list portal_card :=
  map (fun _ => mkPortalCard Dashes Dashes Dashes) st.

(** ** Sample portals *)

Definition fresh (n d : string) (cx cy cz : coord) (w : string) : portal :=
  mkPortal n d cx cy cz w travel_unset closest_unset target_unset.

(** A position given by three integers. *)
Definition at_ (n d : string) (cx cy cz : Z) (w : string) : portal :=
  fresh n d (Some (fl cx)) (Some (fl cy)) (Some (fl cz)) w.

(** An Overworld portal at (80, 70, 80), with its travel location. *)
Definition traveller : portal :=
  computePortalTravelLocation (at_ "A" "" 80 70 80 WORLD_OVERWORLD).

Definition unnamed_east : portal := at_ "" "" 11 70 10 WORLD_NETHER.
Definition above : portal := at_ "Above" "" 10 71 10 WORLD_NETHER.
Definition far_east : portal := at_ "Far" "" 27 70 10 WORLD_NETHER.

(** [unnamed_east] and [above] are both at distance 1 of the travel
    location of [traveller]; [far_east] is outside the square. *)
Definition neighbourhood : list portal :=
  [traveller; unnamed_east; above; far_east].

(** Two Nether portals at (7.4, 72.9, 7.8) and (12.6, 67.1, 12.2): the
    second is nearer to (10, 70, 10), by less than the rounding of the
    distance. *)
Definition near_a : portal :=
  fresh "a" "" (Some (dec 74 10)) (Some (dec 729 10)) (Some (dec 78 10))
        WORLD_NETHER.
Definition near_b : portal :=
  fresh "b" "" (Some (dec 126 10)) (Some (dec 671 10)) (Some (dec 122 10))
        WORLD_NETHER.

(** A Nether portal at (10, 2^600, 10). *)
Definition sky : portal :=
  fresh "B" "" (Some (fl 10)) (Some (S754_finite false 4503599627370496 548))
        (Some (fl 10)) WORLD_NETHER.

(** A Nether portal at (0.1, 64, 0) with destination "T", with its travel
    location, and the Overworld portal "T" at (128.8, 64, 0). *)
Definition edge_a : portal :=
  computePortalTravelLocation
    (fresh "A" "T" (Some (dec 1 10)) (Some (fl 64)) (Some (fl 0))
           WORLD_NETHER).
Definition edge_t : portal :=
  fresh "T" "" (Some (dec 1288 10)) (Some (fl 64)) (Some (fl 0))
        WORLD_OVERWORLD.

(** The least number below zero, [-2^-1074], and the number [2^1021]. *)
Definition least_negative : float := S754_finite true 1 (-1074).

(** An Overworld portal whose destination is an Overworld portal one block
    away from its travel location. *)
Definition homebound : portal :=
  computePortalTravelLocation (at_ "Home" "Door" 8 64 8 WORLD_OVERWORLD).
Definition next_door : portal := at_ "Door" "" 1 64 2 WORLD_OVERWORLD.

(** A portal without position, one with a travel location at the origin of
    the Nether, and a Nether portal whose [y] is unset. *)
Definition lost : portal :=
  fresh "P" "B" None None None WORLD_OVERWORLD.
Definition arrived : portal :=
  computePortalTravelLocation (at_ "P" "B" 0 64 0 WORLD_OVERWORLD).
Definition no_height : portal :=
  fresh "B" "" (Some (fl 0)) None (Some (fl 0)) WORLD_NETHER.

(** A portal whose [x] was edited from 80 to 160 after its travel location,
    closest and target were derived, in an array that also holds a
    [null]. *)
Definition edited : portal :=
  mkPortal "A" "" (Some (fl 160)) (Some (fl 70)) (Some (fl 80))
           WORLD_OVERWORLD
           (mkTravel (Some (fl 10)) (Some (fl 70)) (Some (fl 10))
                     (Some WORLD_NETHER))
           (mkClosest (Some "C") (Some (fl 0)))
           target_unset.

(** A page with the three coordinate inputs empty, which [Number] reads as
    0, and [cards] in the list container. *)
Definition page_with (cards : list portal_card) : page :=
  mkPage cards (Some (fl 0)) (Some (fl 0)) (Some (fl 0)) WORLD_OVERWORLD ""
         dashes.

(** A stored record with a name that is no string, an infinite [x] and an
    unknown world. *)
Definition odd_record : jsval :=
  JObj [("name", JNum (Finite 5));
        ("destination", JStr "Hub");
        ("x", JNum PosInfinity);
        ("y", JNum (Finite 64));
        ("world", JStr "End")].

(** An Overworld portal at (80, 70, 80) with destination "C", with its
    travel location (10, 70, 10), and the Nether portal "C" at
    (13, 74, 10), at distance 5 of it. *)
Definition commuter : portal :=
  computePortalTravelLocation (at_ "A" "C" 80 70 80 WORLD_OVERWORLD).
Definition station : portal := at_ "C" "" 13 74 10 WORLD_NETHER.

(** An array of three values. *)
Definition three_records : list jsval := [JStr "a"; JStr "b"; JStr "c"].

(** ** The scenarios of the specification *)

(** A at Overworld (800, 64, 800) and B at Nether (50, 60, 60): the travel
    location of A is (100, 64, 100) in the Nether, B is outside the square
    of radius 16 and A has no closest portal. *)
Example scenario_out_of_range :
  let a := at_ "A" "" 800 64 800 WORLD_OVERWORLD in
  let b := at_ "B" "" 50 60 60 WORLD_NETHER in
  match derive [a; b] with
  | a' :: _ =>
      travel a' = mkTravel (Some (fl 100)) (Some (fl 64)) (Some (fl 100))
                           (Some WORLD_NETHER)
      /\ closest a' = closest_unset
  | [] => False
  end.
Proof. split; reflexivity. Qed.

(** A at Overworld (80, 70, 80) and C at Nether (10, 70, 10): C is the
    closest portal of A, at distance 0. *)
Example scenario_exact_match :
  let a := at_ "A" "" 80 70 80 WORLD_OVERWORLD in
  let c := at_ "C" "" 10 70 10 WORLD_NETHER in
  match derive [a; c] with
  | a' :: _ =>
      travel a' = mkTravel (Some (fl 10)) (Some (fl 70)) (Some (fl 10))
                           (Some WORLD_NETHER)
      /\ closest a' = mkClosest (Some "C") (Some (fl 0))
  | [] => False
  end.
Proof. split; reflexivity. Qed.

(** A candidate at the edge of the square is eligible and one block further
    it is not. *)
Example scenario_boundary :
  candidate (fl 0) (fl 0) (fl 0) WORLD_NETHER 0 1
            (at_ "E" "" 16 0 0 WORLD_NETHER)
  = Some (fl 16)
  /\ candidate (fl 0) (fl 0) (fl 0) WORLD_NETHER 0 1
               (at_ "E" "" 17 0 0 WORLD_NETHER)
     = None
  /\ candidate (fl 0) (fl 0) (fl 0) WORLD_OVERWORLD 0 1
               (at_ "E" "" 128 0 0 WORLD_OVERWORLD)
     = Some (fl 128)
  /\ candidate (fl 0) (fl 0) (fl 0) WORLD_OVERWORLD 0 1
               (at_ "E" "" 129 0 0 WORLD_OVERWORLD)
     = None.
Proof. repeat split. Qed.

(** The first of two portals at the same distance wins, and an empty name
    is shown as "(unnamed)". *)
Example scenario_tie :
  computeClosestPortal neighbourhood traveller 0
  = mkClosest (Some "(unnamed)") (Some (fl 1))
  /\ computeClosestPortal [traveller; above; unnamed_east] traveller 0
     = mkClosest (Some "Above") (Some (fl 1)).
Proof. split; reflexivity. Qed.

(** ** Numbers: the order *)

Lemma SFcompare_antisym (a b : float) :
  SFcompare b a = option_map CompOpp (SFcompare a b).
Proof.
  destruct a as [[|] | [|] | | [|] m1 e1], b as [[|] | [|] | | [|] m2 e2];
    try reflexivity; cbn [SFcompare option_map];
    rewrite (Z.compare_antisym e1 e2);
    change (Pos.compare_cont Eq m2 m1) with (Pos.compare m2 m1);
    change (Pos.compare_cont Eq m1 m2) with (Pos.compare m1 m2);
    rewrite (Pos.compare_antisym m1 m2);
    destruct (Z.compare e1 e2), (Pos.compare m1 m2); reflexivity.
Qed.

Lemma SFcompare_refl (a : float) :
  is_nan a = false -> SFcompare a a = Some Eq.
Proof.
  destruct a as [[|] | [|] | | [|] m e]; try reflexivity; try discriminate;
    intros _; cbn [SFcompare]; rewrite Z.compare_refl;
    change (Pos.compare_cont Eq m m) with (Pos.compare m m);
    rewrite Pos.compare_refl; reflexivity.
Qed.

Lemma fltb_irrefl (a : float) : (a <? a)%js = false.
Proof.
  unfold fltb, SFltb. destruct (is_nan a) eqn:E.
  - destruct a; try discriminate E. reflexivity.
  - rewrite (SFcompare_refl _ E). reflexivity.
Qed.

Lemma fltb_fleb (a b : float) : (a <? b)%js = true -> (a <=? b)%js = true.
Proof.
  unfold fltb, fleb, SFltb, SFleb.
  destruct (SFcompare a b) as [[| |] |]; (discriminate || reflexivity).
Qed.

(** Whatever is less than a number is less than [Infinity]. *)
Lemma fltb_Infinity (a b : float) :
  (a <? b)%js = true -> (a <? Infinity)%js = true.
Proof.
  unfold fltb, SFltb, Infinity.
  destruct a as [[|] | [|] | | [|] m1 e1]; try reflexivity;
    destruct b as [[|] | [|] | | [|] m2 e2]; discriminate.
Qed.

Lemma fltb_not_nan (a b : float) :
  (a <? b)%js = true -> is_nan a = false /\ is_nan b = false.
Proof.
  unfold fltb, SFltb.
  destruct a as [[|] | [|] | | [|] m1 e1]; try discriminate;
    destruct b as [[|] | [|] | | [|] m2 e2]; try discriminate;
    split; reflexivity.
Qed.

Lemma lex_opp (e1 e2 : Z) (m1 m2 : positive) :
  match Z.compare e1 e2 with
  | Lt => Gt
  | Gt => Lt
  | Eq => CompOpp (Pos.compare m1 m2)
  end = CompOpp (lex e1 m1 e2 m2).
Proof. unfold lex. destruct (Z.compare e1 e2); reflexivity. Qed.

Lemma lex_Lt (e1 e2 e3 : Z) (m1 m2 m3 : positive) :
  lex e1 m1 e2 m2 <> Gt -> lex e2 m2 e3 m3 = Lt -> lex e1 m1 e3 m3 = Lt.
Proof.
  unfold lex.
  destruct (Z.compare_spec e1 e2) as [E12 | E12 | E12];
    destruct (Z.compare_spec e2 e3) as [E23 | E23 | E23];
    destruct (Z.compare_spec e1 e3) as [E13 | E13 | E13];
    try (intros; exfalso; lia); try congruence; try reflexivity.
  destruct (Pos.compare_spec m1 m2) as [M12 | M12 | M12];
    destruct (Pos.compare_spec m2 m3) as [M23 | M23 | M23];
    destruct (Pos.compare_spec m1 m3) as [M13 | M13 | M13];
    try (intros; exfalso; lia); try congruence; try reflexivity.
Qed.

Lemma lex_Gt (e1 e2 e3 : Z) (m1 m2 m3 : positive) :
  lex e1 m1 e2 m2 <> Lt -> lex e2 m2 e3 m3 = Gt -> lex e1 m1 e3 m3 = Gt.
Proof.
  unfold lex.
  destruct (Z.compare_spec e1 e2) as [E12 | E12 | E12];
    destruct (Z.compare_spec e2 e3) as [E23 | E23 | E23];
    destruct (Z.compare_spec e1 e3) as [E13 | E13 | E13];
    try (intros; exfalso; lia); try congruence; try reflexivity.
  destruct (Pos.compare_spec m1 m2) as [M12 | M12 | M12];
    destruct (Pos.compare_spec m2 m3) as [M23 | M23 | M23];
    destruct (Pos.compare_spec m1 m3) as [M13 | M13 | M13];
    try (intros; exfalso; lia); try congruence; try reflexivity.
Qed.

Lemma fleb_fltb_trans (a b c : float) :
  (a <=? b)%js = true -> (b <? c)%js = true -> (a <? c)%js = true.
Proof.
  unfold fltb, fleb, SFltb, SFleb.
  destruct a as [[|] | [|] | | [|] m1 e1], b as [[|] | [|] | | [|] m2 e2],
           c as [[|] | [|] | | [|] m3 e3];
    try reflexivity; try discriminate; cbn [SFcompare];
    change (Pos.compare_cont Eq) with Pos.compare;
    rewrite ?lex_opp;
    fold (lex e1 m1 e2 m2); fold (lex e2 m2 e3 m3); fold (lex e1 m1 e3 m3);
    intros H1 H2.
  - rewrite (@lex_Gt e1 e2 e3 m1 m2 m3); [reflexivity | |].
    + destruct (lex e1 m1 e2 m2); (discriminate || congruence).
    + destruct (lex e2 m2 e3 m3); (discriminate || reflexivity).
  - rewrite (@lex_Lt e1 e2 e3 m1 m2 m3); [reflexivity | |].
    + destruct (lex e1 m1 e2 m2); (discriminate || congruence).
    + destruct (lex e2 m2 e3 m3); (discriminate || reflexivity).
Qed.

(** Of two numbers, neither of them [NaN], one is less than the other or
    the other is at most the one. *)
Lemma fleb_total (a b : float) :
  is_nan a = false -> is_nan b = false ->
  (a <? b)%js = false -> (b <=? a)%js = true.
Proof.
  unfold fltb, fleb, SFltb, SFleb. intros Ha Hb.
  rewrite (SFcompare_antisym a b).
  destruct a as [[|] | [|] | | [|] m1 e1]; try discriminate Ha;
    destruct b as [[|] | [|] | | [|] m2 e2]; try discriminate Hb;
    destruct (SFcompare _ _) as [[| |] |] eqn:E;
    try reflexivity; try discriminate.
Qed.

Lemma fltb_total (a b : float) :
  is_nan a = false -> is_nan b = false ->
  (a <=? b)%js = false -> (b <? a)%js = true.
Proof.
  unfold fltb, fleb, SFltb, SFleb. intros Ha Hb.
  rewrite (SFcompare_antisym a b).
  destruct a as [[|] | [|] | | [|] m1 e1]; try discriminate Ha;
    destruct b as [[|] | [|] | | [|] m2 e2]; try discriminate Hb;
    destruct (SFcompare _ _) as [[| |] |] eqn:E;
    try reflexivity; try discriminate.
Qed.

(** [within] is [<=] on numbers. *)
Lemma within_le (d r : float) :
  is_nan d = false -> is_nan r = false -> within d r = (d <=? r)%js.
Proof.
  unfold within, fgtb, fltb, fleb, SFltb, SFleb. intros Hd Hr.
  rewrite (SFcompare_antisym d r).
  destruct d as [[|] | [|] | | [|] m1 e1]; try discriminate Hd;
    destruct r as [[|] | [|] | | [|] m2 e2]; try discriminate Hr;
    destruct (SFcompare _ _) as [[| |] |] eqn:E;
    try reflexivity; try discriminate.
Qed.

(** ** Numbers: scaling by 8 *)

Lemma fl_8 : fl 8 = S754_finite false 4503599627370496 (-49).
Proof. reflexivity. Qed.

Lemma shr_zeros (k m : positive) :
  iter_pos shr_1 k (Build_shr_record (Zpos (Pos.iter xO m k)) false false)
  = Build_shr_record (Zpos m) false false.
Proof.
  revert m. induction k as [k IH | k IH |]; intro m.
  - cbn [iter_pos Pos.iter shr_1 orb]. rewrite IH, IH. reflexivity.
  - cbn [iter_pos Pos.iter]. rewrite IH, IH. reflexivity.
  - reflexivity.
Qed.

Lemma digits_zeros (k m : positive) :
  Zpos (digits2_pos (Pos.iter xO m k)) = (Zpos (digits2_pos m) + Zpos k)%Z.
Proof.
  revert m. induction k as [k IH | k IH |]; intro m.
  - cbn [Pos.iter digits2_pos]. rewrite Pos2Z.inj_succ, IH, IH. lia.
  - cbn [Pos.iter]. rewrite IH, IH. lia.
  - cbn [Pos.iter digits2_pos]. lia.
Qed.

(** Rounding a mantissa of 53 digits followed by [k] zeros drops the
    zeros. *)
Lemma round_zeros (s : bool) (m k : positive) (e : Z) :
  digits2_pos m = 53%positive -> (-1074 <= e + Zpos k <= 971)%Z ->
  binary_round_aux prec emax s (Zpos (Pos.iter xO m k)) e loc_Exact
  = S754_finite s m (e + Zpos k).
Proof.
  intros Hd He.
  unfold binary_round_aux, shr_fexp, fexp, emin, prec, emax.
  cbn [Zdigits2]. rewrite digits_zeros, Hd.
  replace (Z.max (53 + Zpos k + e - 53) (3 - 1024 - 53) - e)%Z
    with (Zpos k) by lia.
  cbn [shr shr_record_of_loc]. rewrite shr_zeros.
  cbn [shr_m loc_of_shr_record round_nearest_even Zdigits2].
  rewrite Hd.
  replace (Z.max (53 + (e + Zpos k) - 53) (3 - 1024 - 53) - (e + Zpos k))%Z
    with 0%Z by lia.
  cbn [shr shr_m].
  replace (e + Zpos k <=? 1024 - 53)%Z with true
    by (symmetry; apply Z.leb_le; lia).
  reflexivity.
Qed.

(** Rounding a mantissa of 53 digits leaves it as it is. *)
Lemma round_53_digits (s : bool) (m : positive) (e : Z) :
  digits2_pos m = 53%positive -> (-1074 <= e <= 971)%Z ->
  binary_round_aux prec emax s (Zpos m) e loc_Exact = S754_finite s m e.
Proof.
  intros Hd He.
  unfold binary_round_aux, shr_fexp, fexp, emin, prec, emax.
  cbn [Zdigits2]. rewrite Hd.
  replace (Z.max (53 + e - 53) (3 - 1024 - 53) - e)%Z with 0%Z by lia.
  cbn [shr shr_record_of_loc shr_m loc_of_shr_record round_nearest_even
       Zdigits2].
  rewrite Hd.
  replace (Z.max (53 + e - 53) (3 - 1024 - 53) - e)%Z with 0%Z by lia.
  cbn [shr shr_m].
  replace (e <=? 1024 - 53)%Z with true by (symmetry; apply Z.leb_le; lia).
  reflexivity.
Qed.

Lemma div_eucl_shifted (m : positive) (k : Z) (q : positive) :
  (0 <= k)%Z -> (Zpos m * 2 ^ k = Zpos q * 4503599627370496)%Z ->
  Z.div_eucl (Z.shiftl (Zpos m) k) 4503599627370496 = (Zpos q, 0%Z).
Proof.
  intros Hk E. rewrite Z.shiftl_mul_pow2 by exact Hk. rewrite E.
  pose proof (Z.div_eucl_eq (Zpos q * 4503599627370496)
                            4503599627370496) as Q.
  pose proof (Z.mod_pos_bound (Zpos q * 4503599627370496)
                              4503599627370496) as B.
  unfold Z.modulo, Z.div in *.
  destruct (Z.div_eucl (Zpos q * 4503599627370496) 4503599627370496)
    as [a r].
  assert (a = Zpos q /\ r = 0%Z) as [-> ->]; [| reflexivity].
  specialize (Q ltac:(lia)). specialize (B ltac:(lia)).
  cbn [fst snd] in *. lia.
Qed.

(** The quotient by 8 of a normal number of exponent -1071 at least is the
    number with the same mantissa and the exponent three less. *)
Lemma fdiv_8_finite (s : bool) (m : positive) (e : Z) :
  digits2_pos m = 53%positive -> (-1071 <= e <= 971)%Z ->
  (S754_finite s m e / fl 8)%js = S754_finite s m (e - 3).
Proof.
  intros Hd He. rewrite fl_8. unfold fdiv, SFdiv, SFdiv_core_binary.
  cbn [Zdigits2]. rewrite Hd.
  change (Zpos (digits2_pos 4503599627370496)) with 53%Z.
  unfold fexp, emin, prec, emax.
  destruct (Z.eq_dec e (-1071)) as [-> | Hne].
  - change (Z.min (Z.max (53 + -1071 - (53 + -49) - 53) (3 - 1024 - 53))
                  (-1071 - -49))%Z with (-1074)%Z.
    change (-1071 - -49 - -1074)%Z with 52%Z. cbv iota.
    rewrite (@div_eucl_shifted m 52 m) by lia.
    change (new_location 4503599627370496 0) with loc_Exact.
    rewrite xorb_false_r. fold prec emax.
    rewrite round_53_digits by (assumption || lia). reflexivity.
  - replace (Z.min (Z.max (53 + e - (53 + -49) - 53) (3 - 1024 - 53))
                   (e - -49))%Z with (e - 4)%Z by lia.
    replace (e - -49 - (e - 4))%Z with 53%Z by lia.
    cbv iota.
    rewrite (@div_eucl_shifted m 53 m~0) by lia.
    change (new_location 4503599627370496 0) with loc_Exact.
    rewrite xorb_false_r.
    change (Zpos m~0) with (Zpos (Pos.iter xO m 1)).
    fold prec emax.
    rewrite round_zeros by (assumption || lia).
    f_equal. lia.
Qed.

(** The product by 8 of a normal number of exponent 968 at most is the
    number with the same mantissa and the exponent three more. *)
Lemma fmul_8_finite (s : bool) (m : positive) (e : Z) :
  digits2_pos m = 53%positive -> (-1074 <= e <= 968)%Z ->
  (S754_finite s m e * fl 8)%js = S754_finite s m (e + 3).
Proof.
  intros Hd He. rewrite fl_8. unfold fmul, SFmul.
  rewrite xorb_false_r, Pos.mul_comm.
  change (Pos.mul 4503599627370496 m) with (Pos.iter xO m 52).
  rewrite round_zeros by (assumption || lia).
  f_equal. lia.
Qed.

Lemma normal_between_finite (lo hi : Z) (s : bool) (m : positive) (e : Z) :
  normal_between lo hi (S754_finite s m e) = true ->
  digits2_pos m = 53%positive /\ (lo <= e <= hi)%Z.
Proof.
  unfold normal_between, prec. rewrite !andb_true_iff.
  intros [[H1 H2] H3].
  apply Z.eqb_eq in H1. apply Z.leb_le in H2, H3.
  split; [| lia]. injection H1 as ->. reflexivity.
Qed.

Lemma two_power (e : Z) : 2 ^ (e + 3) == 2 ^ e * 8.
Proof.
  rewrite Qpower_plus by discriminate. reflexivity.
Qed.

Lemma two_power_down (e : Z) : 2 ^ (e - 3) == 2 ^ e / 8.
Proof.
  unfold Z.sub. rewrite Qpower_plus by discriminate. reflexivity.
Qed.

(** Where the division by 8 is exact, the quotient denotes the eighth. *)
Lemma fdiv_8_exact (v : float) :
  divides_exactly v = true -> SF2Q (v / fl 8)%js == SF2Q v / 8.
Proof.
  destruct v as [s | s | | s m e]; try discriminate; intro H.
  - reflexivity.
  - destruct (@normal_between_finite (-1071) 971 s m e H) as [Hd He].
    rewrite (@fdiv_8_finite s m e Hd) by lia. unfold SF2Q.
    rewrite two_power_down. field.
Qed.

(** Where the multiplication by 8 is exact, the product denotes eight
    times the number. *)
Lemma fmul_8_exact (v : float) :
  multiplies_exactly v = true -> SF2Q (v * fl 8)%js == SF2Q v * 8.
Proof.
  destruct v as [s | s | | s m e]; try discriminate; intro H.
  - reflexivity.
  - destruct (@normal_between_finite (-1074) 968 s m e H) as [Hd He].
    rewrite (@fmul_8_finite s m e Hd He). unfold SF2Q.
    rewrite two_power. ring.
Qed.

(** ** Numbers: the floor *)

Lemma two_power_neg (a : positive) : 2 ^ Zneg a == 1 # (2 ^ a).
Proof.
  rewrite (Qpower_decomp_neg_pos a 2 1), Z.pow_1_l by lia. reflexivity.
Qed.

Lemma two_power_pos (a : positive) : 2 ^ Zpos a == inject_Z (Zpos (2 ^ a)).
Proof.
  rewrite Pos2Z.inj_pow, Zpower_Qpower by lia. reflexivity.
Qed.

Lemma shifted (p j : positive) :
  Zpos (Pos.iter xO p j) = (Zpos p * Zpos (2 ^ j))%Z.
Proof.
  change (Pos.iter xO p j) with (shift_pos j p).
  rewrite shift_pos_correct, Pos2Z.inj_pow_pos. lia.
Qed.

Lemma SF2Q_exact_integer (s : bool) (p : positive) :
  SF2Q (exact_integer s p) == inject_Z (if s then Zneg p else Zpos p).
Proof.
  unfold exact_integer.
  destruct (prec - Zpos (digits2_pos p))%Z as [| j | j]; unfold SF2Q.
  - change (2 ^ 0) with 1. ring.
  - rewrite two_power_neg.
    assert (E : inject_Z (if s then Zneg (Pos.iter xO p j)
                          else Zpos (Pos.iter xO p j))
                == inject_Z (if s then Zneg p else Zpos p)
                   * inject_Z (Zpos (2 ^ j))).
    { rewrite <- inject_Z_mult. pose proof (shifted p j) as S.
      destruct s; unfold Qeq, inject_Z; cbn [Qnum Qden]; lia. }
    rewrite E. unfold Qeq, Qmult, inject_Z; cbn [Qnum Qden]. lia.
  - change (2 ^ 0) with 1. ring.
Qed.

(** [Math.floor] gives the floor of what its argument denotes. *)
Lemma Math_floor_spec (v : float) :
  SF2Q (Math_floor v) == inject_Z (Qfloor (SF2Q v)).
Proof.
  destruct v as [s | s | | s m [| a | a]]; try reflexivity.
  - cbn [Math_floor SF2Q]. change (2 ^ 0) with 1.
    rewrite Qmult_1_r, Qfloor_Z. reflexivity.
  - cbn [Math_floor SF2Q]. rewrite two_power_pos, <- inject_Z_mult.
    rewrite Qfloor_Z. reflexivity.
  - set (n := if s then Zneg m else Zpos m).
    assert (E : SF2Q (S754_finite s m (Zneg a)) == n # (2 ^ a)).
    { unfold SF2Q. fold n. rewrite two_power_neg.
      unfold Qeq, Qmult, inject_Z; cbn [Qnum Qden]. lia. }
    rewrite (Qfloor_comp _ _ E).
    change (Qfloor (n # 2 ^ a)) with (n / Zpos (2 ^ a))%Z.
    unfold Math_floor. fold n.
    destruct (n / Zpos (2 ^ a))%Z as [| p | p].
    + reflexivity.
    + apply (SF2Q_exact_integer false).
    + apply (SF2Q_exact_integer true).
Qed.

Lemma Math_floor_is_floor (v : float) :
  is_floor (SF2Q v) (SF2Q (Math_floor v)).
Proof.
  exists (Qfloor (SF2Q v)). split; [apply Math_floor_spec |].
  split; [apply Qfloor_le | apply Qlt_floor].
Qed.

Lemma Math_floor_finite (v : float) :
  is_finite v = true -> is_finite (Math_floor v) = true.
Proof.
  destruct v as [s | s | | s m [| a | a]]; try discriminate; try reflexivity.
  intros _. unfold Math_floor.
  destruct (_ / _)%Z; [reflexivity | |];
    unfold exact_integer; destruct (prec - _)%Z; reflexivity.
Qed.

Lemma digits2_pos_size (p : positive) : digits2_pos p = Pos.size p.
Proof. induction p; simpl; congruence. Qed.

Lemma digits2_pos_le (p m : positive) :
  (p <= m)%positive -> (digits2_pos p <= digits2_pos m)%positive.
Proof.
  intro H. rewrite (digits2_pos_size p), (digits2_pos_size m).
  pose proof (Pos.size_le p) as Lp. pose proof (Pos.size_gt m) as Gm.
  assert (Lp' : (2 ^ Zpos (Pos.size p) <= Zpos p~0)%Z)
    by (rewrite <- Pos2Z.inj_pow; exact Lp).
  assert (Gm' : (Zpos m < 2 ^ Zpos (Pos.size m))%Z)
    by (rewrite <- Pos2Z.inj_pow; exact Gm).
  assert (L : (Zpos (Pos.size p) < Zpos (Pos.size m) + 1)%Z);
    [| clear - L; lia].
  apply (Z.pow_lt_mono_r_iff 2); [lia | lia |].
  rewrite Z.pow_add_r by lia. clear Lp Gm. lia.
Qed.

(** The floor of a normal number has at most 53 digits, so that it is a
    normal number too, or zero. *)
Lemma Math_floor_normal (s : bool) (m : positive) (e : Z) :
  digits2_pos m = 53%positive -> (-1074 <= e <= 968)%Z ->
  multiplies_exactly (Math_floor (S754_finite s m e)) = true.
Proof.
  intros Hd He.
  assert (N : forall s' p, (p <= m)%positive ->
                           multiplies_exactly (exact_integer s' p) = true).
  { intros s' p Hp. apply digits2_pos_le in Hp. rewrite Hd in Hp.
    unfold exact_integer, prec.
    destruct (53 - Zpos (digits2_pos p))%Z as [| j | j] eqn:E.
    - unfold multiplies_exactly, normal_between, prec.
      replace (Zpos (digits2_pos p)) with 53%Z by lia. reflexivity.
    - unfold multiplies_exactly, normal_between, prec.
      rewrite digits_zeros.
      replace (Zpos (digits2_pos p) + Zpos j =? 53)%Z with true
        by (symmetry; apply Z.eqb_eq; lia).
      replace (-1074 <=? Zneg j)%Z with true
        by (symmetry; apply Z.leb_le; lia).
      reflexivity.
    - exfalso. lia. }
  destruct e as [| a | a].
  - unfold Math_floor, multiplies_exactly, normal_between, prec.
    rewrite Hd. reflexivity.
  - unfold Math_floor, multiplies_exactly, normal_between, prec.
    rewrite Hd.
    replace (Zpos a <=? 968)%Z with true by (symmetry; apply Z.leb_le; lia).
    reflexivity.
  - unfold Math_floor.
    set (n := if s then Zneg m else Zpos m).
    pose proof (Z.mul_div_le n (Zpos (2 ^ a)) ltac:(lia)) as L.
    pose proof (Z.mul_succ_div_gt n (Zpos (2 ^ a)) ltac:(lia)) as G.
    destruct (n / Zpos (2 ^ a))%Z as [| p | p] eqn:E.
    + reflexivity.
    + apply N. subst n. destruct s; nia.
    + apply N. subst n. destruct s; nia.
Qed.

(** [Math.floor] of a binary64 number is a binary64 number: with
    [Math_floor_spec], it is the binary64 number that denotes the floor. *)
Lemma Math_floor_valid (v : float) :
  valid_binary prec emax v = true ->
  valid_binary prec emax (Math_floor v) = true.
Proof.
  destruct v as [s | s | | s m [| a | a]]; try (intros _; reflexivity);
    try (intro H; exact H).
  cbn [valid_binary]. unfold bounded, canonical_mantissa, fexp, emin.
  unfold prec, emax. rewrite andb_true_iff. intros [C _].
  apply Z.eqb_eq in C.
  assert (Hd : (Zpos (digits2_pos m) <= 53)%Z) by lia.
  assert (N : forall s' p, (p <= m)%positive ->
                valid_binary 53 1024 (exact_integer s' p) = true).
  { intros s' p Hp. apply digits2_pos_le in Hp.
    unfold exact_integer, prec.
    destruct (53 - Zpos (digits2_pos p))%Z as [| j | j] eqn:E;
      cbn [valid_binary]; unfold bounded, canonical_mantissa, fexp, emin;
      rewrite ?digits_zeros; apply andb_true_iff; split;
      try (apply Z.eqb_eq); try (apply Z.leb_le); lia. }
  unfold Math_floor.
  set (n := if s then Zneg m else Zpos m).
  pose proof (Z.mul_div_le n (Zpos (2 ^ a)) ltac:(lia)) as L.
  pose proof (Z.mul_succ_div_gt n (Zpos (2 ^ a)) ltac:(lia)) as G.
  destruct (n / Zpos (2 ^ a))%Z as [| p | p] eqn:E.
  - reflexivity.
  - apply N. subst n. destruct s; nia.
  - apply N. subst n. destruct s; nia.
Qed.

(** Where the division by 8 is exact, the quotient is zero or a normal
    number again, of exponent -1074 at least. *)
Lemma fdiv_8_normal (v : float) :
  divides_exactly v = true ->
  exists q, (v / fl 8)%js = q /\ SF2Q q == SF2Q v / 8
            /\ multiplies_exactly (Math_floor q) = true.
Proof.
  intro H. exists (v / fl 8)%js. split; [reflexivity |].
  split; [apply fdiv_8_exact; exact H |].
  destruct v as [s | s | | s m e]; try discriminate.
  - reflexivity.
  - destruct (@normal_between_finite (-1071) 971 s m e H) as [Hd He].
    rewrite (@fdiv_8_finite s m e Hd) by lia.
    apply Math_floor_normal; [exact Hd | lia].
Qed.

Lemma multiplies_exactly_finite (v : float) :
  multiplies_exactly v = true -> is_finite (v * fl 8)%js = true.
Proof.
  destruct v as [s | s | | s m e]; try discriminate; intro H.
  - reflexivity.
  - destruct (@normal_between_finite (-1074) 968 s m e H) as [Hd He].
    rewrite (@fmul_8_finite s m e Hd He). reflexivity.
Qed.

Lemma divides_exactly_finite (v : float) :
  divides_exactly v = true -> is_finite (v / fl 8)%js = true.
Proof.
  destruct v as [s | s | | s m e]; try discriminate; intro H.
  - reflexivity.
  - destruct (@normal_between_finite (-1071) 971 s m e H) as [Hd He].
    rewrite (@fdiv_8_finite s m e Hd) by lia. reflexivity.
Qed.

(** ** The math helpers *)

(** Negative coordinates round toward negative infinity, and a fraction
    is dropped: (-1, 64, 15.5) in the Overworld travels to (-1, 64, 1). *)
Example travel_location_floors :
  travel (computePortalTravelLocation
            (fresh "N" "" (Some (fl (-1))) (Some (fl 64))
                   (Some (dec 155 10)) WORLD_OVERWORLD))
  = mkTravel (Some (fl (-1))) (Some (fl 64)) (Some (fl 1))
             (Some WORLD_NETHER).
Proof. reflexivity. Qed.

Lemma times8_inject (k : Z) : inject_Z k * 8 == inject_Z (8 * k).
Proof.
  unfold Qeq, Qmult, inject_Z; cbn [Qnum Qden]. lia.
Qed.

Lemma floor_eighth_of_multiple (q : Q) (k : Z) :
  q == inject_Z (8 * k) -> Qfloor (q / 8) = k.
Proof.
  intro H.
  assert (E : q / 8 == inject_Z k).
  { rewrite H, <- times8_inject. field. }
  rewrite (Qfloor_comp _ _ E). apply Qfloor_Z.
Qed.

Lemma roundtrip_fixed_iff (q : Q) :
  inject_Z (Qfloor (q / 8)) * 8 == q <-> multiple_of_8 q.
Proof.
  unfold multiple_of_8. split.
  - intro H. exists (Qfloor (q / 8)).
    rewrite <- times8_inject. symmetry. exact H.
  - intros [k Hk]. rewrite (floor_eighth_of_multiple _ Hk).
    rewrite times8_inject. symmetry. exact Hk.
Qed.

Lemma is_floor_compat (q q' r : Q) : q == q' -> is_floor q r -> is_floor q' r.
Proof.
  intros E (k & Hr & Hle & Hlt). exists k.
  rewrite <- E. repeat split; assumption.
Qed.

(** Overworld to Nether, on a coordinate whose division by 8 is exact:
    the result is finite and denotes the floor of the eighth. *)
Lemma floor_of_eighth (v : float) :
  divides_exactly v = true ->
  is_finite (Math_floor (v / fl 8)%js) = true
  /\ is_floor (SF2Q v / 8) (SF2Q (Math_floor (v / fl 8)%js))
  /\ SF2Q (Math_floor (v / fl 8)%js) == inject_Z (Qfloor (SF2Q v / 8)).
Proof.
  intro H. pose proof (fdiv_8_exact _ H) as E.
  split; [apply Math_floor_finite, divides_exactly_finite; exact H |].
  split.
  - apply (is_floor_compat E). apply Math_floor_is_floor.
  - rewrite Math_floor_spec, (Qfloor_comp _ _ E). reflexivity.
Qed.




Lemma SF2Q_negative_exponent (s : bool) (m a : positive) :
  SF2Q (S754_finite s m (Zneg a))
  == (if s then Zneg m else Zpos m) # (2 ^ a).
Proof.
  unfold SF2Q. rewrite two_power_neg.
  unfold Qeq, Qmult, inject_Z; cbn [Qnum Qden]. lia.
Qed.

(** A number of at most 53 digits and exponent -1072 at most is less than
    1 in magnitude and not zero: it is no multiple of 8. *)
Lemma small_not_multiple_of_8 (s : bool) (m : positive) (e : Z) :
  (Zpos (digits2_pos m) <= 53)%Z -> (e <= -1072)%Z ->
  ~ multiple_of_8 (SF2Q (S754_finite s m e)).
Proof.
  intros Hd He [k Hk].
  destruct e as [| a | a]; try lia.
  rewrite SF2Q_negative_exponent in Hk.
  unfold Qeq, inject_Z in Hk; cbn [Qnum Qden] in Hk.
  pose proof (Pos.size_gt m) as G. rewrite <- digits2_pos_size in G.
  assert (G' : (Zpos m < 2 ^ Zpos (digits2_pos m))%Z)
    by (rewrite <- Pos2Z.inj_pow; exact G).
  assert (P : (2 ^ Zpos (digits2_pos m) <= 2 ^ Zpos a)%Z)
    by (apply Z.pow_le_mono_r; lia).
  rewrite Pos2Z.inj_pow in Hk. clear G.
  set (P2 := (2 ^ Zpos a)%Z) in *. set (D := (2 ^ Zpos (digits2_pos m))%Z) in *.
  assert (M : (0 < Zpos m)%Z) by lia.
  assert (K : (k = 0 \/ 1 <= k \/ k <= -1)%Z) by lia.
  destruct K as [-> | [K | K]]; [destruct s; lia | |].
  - assert (P2 <= k * P2)%Z by nia. destruct s; lia.
  - assert (k * P2 <= - P2)%Z by nia. destruct s; lia.
Qed.

(** The binary64 numbers on which the division by 8 is not proved exact
    are less than 1 in magnitude and not zero. *)
Lemma inexact_not_multiple_of_8 (v : float) :
  valid_binary prec emax v = true -> is_finite v = true ->
  divides_exactly v = false -> ~ multiple_of_8 (SF2Q v).
Proof.
  destruct v as [s | s | | s m e]; try discriminate.
  cbn [valid_binary]. unfold bounded, canonical_mantissa, fexp, emin.
  unfold divides_exactly, normal_between, prec, emax.
  rewrite andb_true_iff. intros [C B] _ D.
  apply Z.eqb_eq in C. apply Z.leb_le in B.
  apply small_not_multiple_of_8; [lia |].
  destruct (Zpos (digits2_pos m) =? 53)%Z eqn:E53.
  - apply Z.eqb_eq in E53. cbn [andb] in D.
    rewrite andb_false_iff in D. destruct D as [D | D].
    + apply Z.leb_gt in D. lia.
    + apply Z.leb_gt in D. lia.
  - apply Z.eqb_neq in E53. lia.
Qed.

(** C5 fails as stated: the round trip of [-2^-1074] is [-0], not the
    floor of its eighth times 8, which is -8. *)
Lemma round_trip_is_rounded :
  let there := convertCoords (Some least_negative) (Some least_negative)
                             WORLD_OVERWORLD WORLD_NETHER in
  convertCoords (xz_x there) (xz_z there) WORLD_NETHER WORLD_OVERWORLD
  = mkXZ (Some (S754_zero true)) (Some (S754_zero true))
  /\ inject_Z (Qfloor (SF2Q least_negative / 8)) * 8 == - (8)
  /\ ~ SF2Q (S754_zero true)
       == inject_Z (Qfloor (SF2Q least_negative / 8)) * 8.
Proof.
  split; [reflexivity |].
  assert (E : Qfloor (SF2Q least_negative / 8) = (-1)%Z)
    by (vm_compute; reflexivity).
  rewrite E. split; [reflexivity | discriminate].
Qed.

(** Overworld to Nether and back, on a coordinate whose division by 8 is
    exact. *)
Lemma round_trip_value (v : float) :
  divides_exactly v = true ->
  let r := (Math_floor (v / fl 8) * fl 8)%js in
  is_finite r = true
  /\ SF2Q r == inject_Z (Qfloor (SF2Q v / 8)) * 8.
Proof.
  intros H r. subst r.
  destruct (fdiv_8_normal _ H) as (q & Eq & _ & Hm). rewrite Eq.
  split; [apply multiplies_exactly_finite; exact Hm |].
  rewrite (fmul_8_exact _ Hm). rewrite <- Eq.
  destruct (floor_of_eighth _ H) as (_ & _ & F). rewrite F. reflexivity.
Qed.

(** C5, amended. For coordinates that are zero or normal numbers of
    magnitude [2^-1019] at least: Overworld to Nether and back gives the
    floor of each coordinate divided by 8, times 8, and a coordinate comes
    back changed exactly when it is not a multiple of 8.  For every pair
    of binary64 numbers, the pair comes back changed only when one of the
    two is not a multiple of 8. *)
Theorem convertCoords_round_trip (cx cz : float) :
  let there := convertCoords (Some cx) (Some cz)
                             WORLD_OVERWORLD WORLD_NETHER in
  exists rx rz,
    convertCoords (xz_x there) (xz_z there) WORLD_NETHER WORLD_OVERWORLD
    = mkXZ (Some rx) (Some rz)
    /\ (divides_exactly cx = true ->
        is_finite rx = true
        /\ SF2Q rx == inject_Z (Qfloor (SF2Q cx / 8)) * 8
        /\ (SF2Q rx == SF2Q cx <-> multiple_of_8 (SF2Q cx)))
    /\ (divides_exactly cz = true ->
        is_finite rz = true
        /\ SF2Q rz == inject_Z (Qfloor (SF2Q cz / 8)) * 8
        /\ (SF2Q rz == SF2Q cz <-> multiple_of_8 (SF2Q cz)))
    /\ (valid_binary prec emax cx = true -> is_finite cx = true ->
        valid_binary prec emax cz = true -> is_finite cz = true ->
        ~ (SF2Q rx == SF2Q cx /\ SF2Q rz == SF2Q cz) ->
        ~ multiple_of_8 (SF2Q cx) \/ ~ multiple_of_8 (SF2Q cz)).
Proof.
  intro there.
  exists (Math_floor (cx / fl 8) * fl 8)%js,
         (Math_floor (cz / fl 8) * fl 8)%js.
  assert (I : forall v, divides_exactly v = true ->
                is_finite (Math_floor (v / fl 8) * fl 8)%js = true
                /\ SF2Q (Math_floor (v / fl 8) * fl 8)%js
                   == inject_Z (Qfloor (SF2Q v / 8)) * 8
                /\ (SF2Q (Math_floor (v / fl 8) * fl 8)%js == SF2Q v
                    <-> multiple_of_8 (SF2Q v))).
  { intros v H. destruct (round_trip_value _ H) as [F V].
    split; [exact F |]. split; [exact V |].
    rewrite V. apply roundtrip_fixed_iff. }
  split; [reflexivity |].
  split; [apply I |]. split; [apply I |].
  intros Vx Fx Vz Fz Hne.
  destruct (divides_exactly cx) eqn:Dx;
    [| left; apply inexact_not_multiple_of_8; assumption].
  destruct (divides_exactly cz) eqn:Dz;
    [| right; apply inexact_not_multiple_of_8; assumption].
  destruct (I cx Dx) as (_ & _ & Ix). destruct (I cz Dz) as (_ & _ & Iz).
  destruct (Qeq_dec (SF2Q (Math_floor (cx / fl 8) * fl 8)%js) (SF2Q cx))
    as [Ex | Ex].
  - right. intro Mz. apply Hne. split; [exact Ex | apply Iz; exact Mz].
  - left. intro Mx. apply Ex. apply Ix. exact Mx.
Qed.

Lemma convertCoords_round_trip_witness :
  exists rx rz,
    convertCoords (Some (fl 1)) (Some (fl 2)) WORLD_NETHER WORLD_OVERWORLD
    = mkXZ (Some rx) (Some rz)
    /\ SF2Q rx == inject_Z (Qfloor (SF2Q (fl 12) / 8)) * 8
    /\ (SF2Q rz == SF2Q (fl 16) <-> multiple_of_8 (SF2Q (fl 16)))
    /\ (~ multiple_of_8 (SF2Q (fl 12)) \/ ~ multiple_of_8 (SF2Q (fl 16))).
Proof.
  destruct (convertCoords_round_trip (fl 12) (fl 16))
    as (rx & rz & E & Hx & Hz & Hne).
  exists rx, rz. split; [exact E |].
  split; [exact (proj1 (proj2 (Hx eq_refl))) |].
  split; [exact (proj2 (proj2 (Hz eq_refl))) |].
  apply Hne; try reflexivity.
  intros [Ex _]. apply (proj2 (proj2 (Hx eq_refl))) in Ex.
  destruct Ex as [k Hk].
  assert (E12 : SF2Q (fl 12) == 12) by reflexivity.
  rewrite E12 in Hk.
  unfold Qeq, inject_Z in Hk; cbn [Qnum Qden] in Hk. lia.
Defined.

(** C7. [distance3D] gives [null] as soon as one of its six coordinates is
    unset, and [convertCoords] gives both outputs unset as soon as one of
    its two coordinates is unset, whatever the worlds; both are total
    functions, so nothing is thrown. *)
Theorem unset_coordinates_give_unset :
  (forall x1 y1 z1 x2 y2 z2 : coord,
      x1 = None \/ y1 = None \/ z1 = None \/
      x2 = None \/ y2 = None \/ z2 = None ->
      distance3D x1 y1 z1 x2 y2 z2 = None)
  /\ (forall (cx cz : coord) (fromWorld toWorld : string),
         cx = None \/ cz = None ->
         convertCoords cx cz fromWorld toWorld = mkXZ None None).
Proof.
  split.
  - intros x1 y1 z1 x2 y2 z2 H.
    destruct x1, y1, z1, x2, y2, z2; try reflexivity.
    destruct H as [H | [H | [H | [H | [H | H]]]]]; discriminate H.
  - intros cx cz fromWorld toWorld H.
    destruct cx, cz; try reflexivity.
    destruct H as [H | H]; discriminate H.
Qed.

Lemma unset_coordinates_give_unset_witness :
  distance3D (Some (fl 1)) None (Some (fl 3))
             (Some (fl 4)) (Some (fl 5)) (Some (fl 6)) = None
  /\ convertCoords None (Some (fl 8)) WORLD_OVERWORLD WORLD_NETHER
     = mkXZ None None.
Proof.
  split.
  - apply (proj1 unset_coordinates_give_unset). right. left. reflexivity.
  - apply (proj2 unset_coordinates_give_unset). left. reflexivity.
Defined.

(** ** The closest-portal search *)

Section ClosestSearch.

Variables tx ty tz : float.
Variable W : string.
Variable index : nat.

Let step := closest_step tx (Some ty) tz (Some W) index.
Let loop := closest_loop tx (Some ty) tz (Some W) index.
Let cand := candidate tx ty tz W index.
Let fits := describes tx ty tz W index.

Lemma maxRange_radius : maxRange (Some W) = radius W.
Proof. reflexivity. Qed.

(** The callback of the loop, read through [candidate]: a portal that is
    no candidate leaves the state alone, and a candidate replaces the
    running minimum when it is strictly closer. *)
Lemma closest_step_candidate (st : search_state) (other : portal)
    (i : nat) :
  step st other i =
  match cand i other with
  | None => st
  | Some d => if (d <? snd st)%js then (Some other, d) else st
  end.
Proof.
  unfold step, cand, closest_step, candidate.
  destruct (Nat.eqb i index); [reflexivity |].
  unfold world_is. rewrite String.eqb_sym.
  destruct (world other =? W); cbn [negb]; [| reflexivity].
  destruct (x other) as [ox |]; [| reflexivity].
  destruct (z other) as [oz |]; [| destruct (y other); reflexivity].
  rewrite maxRange_radius. unfold within. rewrite <- negb_orb.
  destruct (y other) as [oy |]; unfold distance3D;
    destruct (_ || _); reflexivity.
Qed.

Lemma nth_error_snoc (A : Type) (l : list A) (a : A) (j : nat) (c : A) :
  nth_error (l ++ [a]) j = Some c ->
  nth_error l j = Some c \/ (j = List.length l /\ c = a).
Proof.
  intro H.
  destruct (Nat.lt_ge_cases j (List.length l)) as [Hlt | Hge].
  - left. rewrite nth_error_app1 in H by exact Hlt. exact H.
  - right. rewrite nth_error_app2 in H by exact Hge.
    destruct (j - List.length l)%nat as [| m] eqn:E.
    + simpl in H. split; [lia | congruence].
    + simpl in H. destruct m; discriminate H.
Qed.

Lemma nth_error_snoc_old (A : Type) (l : list A) (a : A) (j : nat)
    (c : A) :
  nth_error l j = Some c -> nth_error (l ++ [a]) j = Some c.
Proof.
  intro H. rewrite nth_error_app1; [exact H |].
  apply nth_error_Some. congruence.
Qed.

Lemma nth_error_snoc_new (A : Type) (l : list A) (a : A) :
  nth_error (l ++ [a]) (List.length l) = Some a.
Proof.
  rewrite nth_error_app2 by lia. rewrite Nat.sub_diag. reflexivity.
Qed.

(** A distance that is at most a distance less than another is not one
    that the other is less than. *)
Lemma beaten (d d' bd : float) :
  (d <? bd)%js = true -> (d' <? bd)%js = false ->
  (d' <=? d)%js = false /\ (d' <? d)%js = false.
Proof.
  intros Hlt Hnot.
  assert (E : (d' <=? d)%js = false).
  { destruct (d' <=? d)%js eqn:E; [| reflexivity].
    rewrite (fleb_fltb_trans _ _ _ E Hlt) in Hnot. discriminate Hnot. }
  split; [exact E |].
  destruct (d' <? d)%js eqn:F; [| reflexivity].
  rewrite (fltb_fleb _ _ F) in E. discriminate E.
Qed.

(** One more portal visited, one more portal described. *)
Lemma describes_step (pre : list portal) (other : portal)
    (st : search_state) :
  fits pre st -> fits (pre ++ [other]) (step st other (List.length pre)).
Proof.
  intro Hinv. rewrite closest_step_candidate.
  destruct (cand (List.length pre) other) as [d |] eqn:Ec.
  - destruct st as [[best |] bd]; cbn [snd fits describes] in *.
    + destruct Hinv as (Hfin & i & Hi & Hci & Hmin).
      destruct (d <? bd)%js eqn:El.
      * split; [exact (fltb_Infinity _ _ El) |].
        exists (List.length pre). split; [apply nth_error_snoc_new |].
        split; [exact Ec |].
        intros j c d' Hj Hc.
        destruct (nth_error_snoc _ _ _ Hj) as [Hold | [Hnew Hca]].
        -- destruct (Hmin j c d' Hold Hc) as [Hnot _].
           destruct (beaten _ _ _ El Hnot) as [Hle Hlt].
           split; [exact Hlt | intros _; exact Hle].
        -- subst j c. fold cand in Hc. rewrite Ec in Hc.
           injection Hc as <-.
           split; [apply fltb_irrefl | lia].
      * split; [exact Hfin |].
        exists i. split; [apply nth_error_snoc_old; exact Hi |].
        split; [exact Hci |].
        intros j c d' Hj Hc.
        destruct (nth_error_snoc _ _ _ Hj) as [Hold | [Hnew Hca]].
        -- exact (Hmin j c d' Hold Hc).
        -- subst j c. fold cand in Hc. rewrite Ec in Hc.
           injection Hc as <-.
           split; [exact El |].
           intro Hlt. exfalso.
           assert (i < List.length pre)%nat
             by (apply nth_error_Some; congruence).
           lia.
    + destruct Hinv as [-> Hnone].
      destruct (d <? Infinity)%js eqn:El.
      * split; [exact El |].
        exists (List.length pre). split; [apply nth_error_snoc_new |].
        split; [exact Ec |].
        intros j c d' Hj Hc.
        destruct (nth_error_snoc _ _ _ Hj) as [Hold | [Hnew Hca]].
        -- pose proof (Hnone j c d' Hold Hc) as Hnot.
           destruct (beaten _ _ _ El Hnot) as [Hle Hlt].
           split; [exact Hlt | intros _; exact Hle].
        -- subst j c. fold cand in Hc. rewrite Ec in Hc.
           injection Hc as <-.
           split; [apply fltb_irrefl | lia].
      * split; [reflexivity |].
        intros j c d' Hj Hc.
        destruct (nth_error_snoc _ _ _ Hj) as [Hold | [Hnew Hca]].
        -- exact (Hnone j c d' Hold Hc).
        -- subst j c. fold cand in Hc. rewrite Ec in Hc.
           injection Hc as <-. exact El.
  - destruct st as [[best |] bd]; cbn [snd fits describes] in *.
    + destruct Hinv as (Hfin & i & Hi & Hci & Hmin).
      split; [exact Hfin |].
      exists i. split; [apply nth_error_snoc_old; exact Hi |].
      split; [exact Hci |].
      intros j c d' Hj Hc.
      destruct (nth_error_snoc _ _ _ Hj) as [Hold | [Hnew Hca]].
      * exact (Hmin j c d' Hold Hc).
      * subst j c. fold cand in Hc. rewrite Ec in Hc. discriminate Hc.
    + destruct Hinv as [-> Hnone]. split; [reflexivity |].
      intros j c d' Hj Hc.
      destruct (nth_error_snoc _ _ _ Hj) as [Hold | [Hnew Hca]].
      * exact (Hnone j c d' Hold Hc).
      * subst j c. fold cand in Hc. rewrite Ec in Hc. discriminate Hc.
Qed.

(** The loop keeps the description, from any point of the list on. *)
Lemma describes_loop (others pre : list portal) (st : search_state) :
  fits pre st ->
  fits (pre ++ others) (loop others (List.length pre) st).
Proof.
  revert pre st.
  induction others as [| other rest IH]; intros pre st Hinv.
  - rewrite app_nil_r. exact Hinv.
  - change (fits (pre ++ other :: rest)
                 (loop rest (S (List.length pre))
                       (step st other (List.length pre)))).
    assert (E1 : (pre ++ other :: rest = (pre ++ [other]) ++ rest)%list)
      by (rewrite <- app_assoc; reflexivity).
    assert (E2 : S (List.length pre) = List.length (pre ++ [other])%list)
      by (rewrite length_app; simpl; lia).
    rewrite E1, E2.
    apply IH. apply describes_step. exact Hinv.
Qed.

Lemma describes_search (portals : list portal) :
  fits portals (loop portals 0%nat (None, Infinity)).
Proof.
  apply (describes_loop portals []).
  split; [reflexivity |].
  intros i c d Hi. destruct i; discriminate Hi.
Qed.

End ClosestSearch.

(** What being a candidate means, condition by condition. *)
Lemma candidate_conditions (tx ty tz : float) (W : string)
    (index i : nat) (c : portal) (d : float) :
  candidate tx ty tz W index i c = Some d <->
  i <> index /\ world c = W /\
  exists cx cy cz,
    x c = Some cx /\ y c = Some cy /\ z c = Some cz /\
    (Math_abs (cx - tx) >? radius W)%js = false /\
    (Math_abs (cz - tz) >? radius W)%js = false /\
    distance3D (Some tx) (Some ty) (Some tz) (x c) (y c) (z c) = Some d.
Proof.
  unfold candidate, within. split.
  - intro H.
    destruct (Nat.eqb i index) eqn:Ei; [discriminate H |].
    apply Nat.eqb_neq in Ei.
    destruct (world c =? W) eqn:Ew; [| discriminate H].
    apply String.eqb_eq in Ew. cbn [negb] in H.
    destruct (x c) as [cx |]; [| discriminate H].
    destruct (y c) as [cy |]; [| discriminate H].
    destruct (z c) as [cz |]; [| discriminate H].
    destruct (Math_abs (cx - tx) >? radius W)%js eqn:Ex;
      [discriminate H |].
    destruct (Math_abs (cz - tz) >? radius W)%js eqn:Ez;
      [discriminate H |].
    cbn [negb andb] in H. injection H as <-.
    split; [exact Ei |]. split; [exact Ew |].
    exists cx, cy, cz. repeat split; assumption.
  - intros (Hi & Hw & cx & cy & cz & Hx & Hy & Hz & Bx & Bz & Hd).
    apply Nat.eqb_neq in Hi. rewrite Hi.
    apply String.eqb_eq in Hw. rewrite Hw. cbn [negb].
    rewrite Hx, Hy, Hz in Hd |- *. rewrite Bx, Bz. cbn [negb andb].
    exact Hd.
Qed.

(** C1 fails as stated: the search ranks by the rounded distance, filters
    by the rounded differences and never keeps a distance that is not less
    than [Infinity].  Of two candidates whose computed distances are the same
    number, the search names the first although the second is nearer; a
    portal whose computed [|x - tx|] is 128 is inside the square of radius
    128 although it is farther than 128 from the travel location; and a
    candidate whose computed distance is [Infinity] is not kept. *)
Lemma closest_search_is_rounded :
  (computeClosestPortal [traveller; near_a; near_b] traveller 0
   = mkClosest (Some "a") (Some (euclid (fl 10) (fl 70) (fl 10)
                                        (dec 74 10) (dec 729 10)
                                        (dec 78 10)))
   /\ candidate (fl 10) (fl 70) (fl 10) WORLD_NETHER 0 2 near_b
      = candidate (fl 10) (fl 70) (fl 10) WORLD_NETHER 0 1 near_a
   /\ squared_distance (fl 10) (fl 70) (fl 10)
                       (dec 126 10) (dec 671 10) (dec 122 10)
      < squared_distance (fl 10) (fl 70) (fl 10)
                         (dec 74 10) (dec 729 10) (dec 78 10))
  /\ (travel edge_a
      = mkTravel (Some (dec 8 10)) (Some (fl 64)) (Some (fl 0))
                 (Some WORLD_OVERWORLD)
      /\ candidate (dec 8 10) (fl 64) (fl 0) WORLD_OVERWORLD 0 1 edge_t
         = Some (fl 128)
      /\ SF2Q (fl 128) < SF2Q (dec 1288 10) - SF2Q (dec 8 10))
  /\ (candidate (fl 10) (fl 70) (fl 10) WORLD_NETHER 0 1 sky
      = Some Infinity
      /\ computeClosestPortal [traveller; sky] traveller 0
         = closest_unset).
Proof.
  repeat split.
Qed.

(** C1, amended. For a portal whose travel location is set, in world [W],
    the candidates are the other portals of world [W] with a complete
    position for which the computed [|x - tx|] and [|z - tz|] are not
    greater than the radius, 16 in the Nether and 128 elsewhere.  Either
    no candidate has a computed distance less than [Infinity] and the
    result is unset, or the result names a candidate whose computed
    distance is less than [Infinity], is not greater than that of any
    candidate and is less than that of every candidate before it in the
    list, with that distance; an empty name is shown as "(unnamed)".  The
    comparisons are those of the code, which are [false] on [NaN]; for a
    distance that is a number they read as [<=] and [<]. *)
Theorem computeClosestPortal_spec (portals : list portal) (p : portal)
    (index : nat) (tx ty tz : float) (W : string) :
  travel p = mkTravel (Some tx) (Some ty) (Some tz) (Some W) ->
  ((forall i c d, nth_error portals i = Some c ->
                  candidate tx ty tz W index i c = Some d ->
                  (d <? Infinity)%js = false)
   /\ computeClosestPortal portals p index = closest_unset)
  \/
  (exists i best d,
      nth_error portals i = Some best
      /\ candidate tx ty tz W index i best = Some d
      /\ (d <? Infinity)%js = true
      /\ (forall j c d',
             nth_error portals j = Some c ->
             candidate tx ty tz W index j c = Some d' ->
             (d' <? d)%js = false
             /\ ((j < i)%nat -> (d' <=? d)%js = false)
             /\ (is_nan d' = false ->
                 (d <=? d')%js = true
                 /\ ((j < i)%nat -> (d <? d')%js = true)))
      /\ computeClosestPortal portals p index
         = mkClosest
             (Some (if name best =? "" then "(unnamed)" else name best))
             (Some d)).
Proof.
  intro Ht.
  pose proof (describes_search tx ty tz W index portals) as Hfit.
  unfold computeClosestPortal. rewrite Ht.
  cbn [travel_x travel_y travel_z travel_world].
  destruct (closest_loop tx (Some ty) tz (Some W) index portals 0
                         (None, Infinity)) as [[best |] d];
    cbn [describes] in Hfit.
  - right. destruct Hfit as (Hfin & i & Hi & Hc & Hmin).
    exists i, best, d.
    split; [exact Hi |]. split; [exact Hc |]. split; [exact Hfin |].
    split; [| reflexivity].
    intros j c d' Hj Hc'. destruct (Hmin j c d' Hj Hc') as [Hlt Hle].
    pose proof (proj1 (fltb_not_nan _ _ Hfin)) as Hd.
    split; [exact Hlt |]. split; [exact Hle |].
    intro Hd'. split.
    + apply fleb_total; assumption.
    + intro Hji. apply fltb_total; [assumption | assumption |].
      exact (Hle Hji).
  - left. destruct Hfit as [_ Hnone]. split; [exact Hnone | reflexivity].
Qed.

Lemma computeClosestPortal_spec_witness :
  travel traveller
  = mkTravel (Some (fl 10)) (Some (fl 70)) (Some (fl 10))
             (Some WORLD_NETHER)
  /\ exists i best d,
      nth_error neighbourhood i = Some best
      /\ candidate (fl 10) (fl 70) (fl 10) WORLD_NETHER 0 i best = Some d
      /\ computeClosestPortal neighbourhood traveller 0
         = mkClosest
             (Some (if name best =? "" then "(unnamed)" else name best))
             (Some d).
Proof.
  split; [reflexivity |].
  destruct (@computeClosestPortal_spec neighbourhood traveller 0%nat
              (fl 10) (fl 70) (fl 10) WORLD_NETHER eq_refl)
    as [[Hnone _] | (i & best & d & Hi & Hc & _ & _ & Hr)].
  - exfalso. specialize (Hnone 1%nat unnamed_east (fl 1) eq_refl eq_refl).
    discriminate Hnone.
  - exists i, best, d. repeat split; assumption.
Defined.

(** ** Target reachability *)

(** C4. When the destination of a portal resolves to a portal with a
    complete position and the travel world of the former is not the world
    of the latter (an unset travel world included), the target is the name
    of the latter with "Cannot Reach", wherever the two lie. *)
Theorem cross_world_target_unreachable (portals : list portal)
    (p t : portal) :
  destination p <> "" ->
  find (fun q => name q =? destination p) portals = Some t ->
  complete t = true ->
  travel_world (travel p) <> Some (world t) ->
  computeTargetPortal portals p = mkTarget (Some (name t)) CannotReach.
Proof.
  intros Hd Hfind Hc Hw. unfold computeTargetPortal.
  apply String.eqb_neq in Hd. rewrite Hd, Hfind.
  unfold complete in Hc.
  destruct (x t) as [gx |]; [| discriminate Hc].
  destruct (y t) as [gy |]; [| discriminate Hc].
  destruct (z t) as [gz |]; [| discriminate Hc].
  destruct (travel_x (travel p)) as [tx |]; [| reflexivity].
  destruct (travel_z (travel p)) as [tz |]; [| reflexivity].
  assert (E : world_is (travel_world (travel p)) (world t) = false).
  { unfold world_is. destruct (travel_world (travel p)) as [w |];
      [| reflexivity].
    apply String.eqb_neq. congruence. }
  rewrite E. reflexivity.
Qed.

Lemma cross_world_target_unreachable_witness :
  computeTargetPortal [homebound; next_door] homebound
  = mkTarget (Some "Door") CannotReach.
Proof.
  apply (@cross_world_target_unreachable [homebound; next_door]
           homebound next_door).
  - discriminate.
  - reflexivity.
  - reflexivity.
  - discriminate.
Defined.

(** C10. A portal with an empty destination gets an unset target whatever
    the list holds, and the name in a target is never the empty string: it
    is the destination of the portal, which is not empty. *)
Theorem empty_destination_target_unset :
  (forall portals p, destination p = "" ->
                     computeTargetPortal portals p = target_unset)
  /\ (forall portals p n,
         target_name (computeTargetPortal portals p) = Some n ->
         n <> "" /\ n = destination p
         /\ exists t, In t portals /\ name t = n).
Proof.
  split.
  - intros portals p Hd. unfold computeTargetPortal. rewrite Hd. reflexivity.
  - intros portals p n. unfold computeTargetPortal.
    destruct (destination p =? "") eqn:Ed; [discriminate |].
    apply String.eqb_neq in Ed.
    destruct (find (fun q => name q =? destination p) portals)
      as [t |] eqn:Ef; [| discriminate].
    apply find_some in Ef. destruct Ef as [Hin Hn].
    apply String.eqb_eq in Hn.
    intro H.
    assert (En : name t = n).
    { destruct (x t); [| discriminate H].
      destruct (z t); [| discriminate H].
      destruct (travel_x (travel p)); [| injection H as <-; reflexivity].
      destruct (travel_z (travel p)); [| injection H as <-; reflexivity].
      destruct (negb _); [injection H as <-; reflexivity |].
      destruct (_ || _); [injection H as <-; reflexivity |].
      destruct (distance3D _ _ _ _ _ _); injection H as <-; reflexivity. }
    subst n. split; [congruence |]. split; [exact Hn |].
    exists t. split; [exact Hin | reflexivity].
Qed.

Lemma empty_destination_target_unset_witness :
  computeTargetPortal [next_door; homebound] next_door = target_unset
  /\ "Door" <> "".
Proof.
  split.
  - apply (proj1 empty_destination_target_unset). reflexivity.
  - apply (proj2 empty_destination_target_unset
             [homebound; next_door] homebound "Door").
    reflexivity.
Defined.

(** The part of target resolution that holds as the specification has it:
    no portal of that name, or a first such portal without [x] or without
    [z], gives an unset target. *)
Lemma unresolved_target_unset (portals : list portal) (p : portal) :
  find (fun q => name q =? destination p) portals = None
  \/ (exists t, find (fun q => name q =? destination p) portals = Some t
                /\ (x t = None \/ z t = None)) ->
  computeTargetPortal portals p = target_unset.
Proof.
  intro H. unfold computeTargetPortal.
  destruct (destination p =? ""); [reflexivity |].
  destruct H as [H | (t & H & Hxz)]; rewrite H; [reflexivity |].
  destruct Hxz as [E | E]; rewrite E; [reflexivity |].
  destruct (x t); reflexivity.
Qed.

(** C2 fails on the code: a target whose [y] alone is unset passes the
    guard on [x] and [z].  From a portal without travel location the result
    is its name with "Cannot Reach"; from a portal in range the result is
    its name with a [null] distance. *)
Theorem target_without_height_not_unset :
  complete no_height = false
  /\ find (fun q => name q =? destination lost) [lost; no_height]
     = Some no_height
  /\ computeTargetPortal [lost; no_height] lost
     = mkTarget (Some "B") CannotReach
  /\ computeTargetPortal [arrived; no_height] arrived
     = mkTarget (Some "B") TNull.
Proof. repeat split. Qed.

(** ** The calculation dispatcher *)

Lemma computePortalTravelLocation_keeps (p : portal) :
  let p' := computePortalTravelLocation p in
  name p' = name p /\ destination p' = destination p
  /\ x p' = x p /\ y p' = y p /\ z p' = z p /\ world p' = world p
  /\ closest p' = closest p /\ target p' = target p.
Proof.
  unfold computePortalTravelLocation.
  destruct (x p) eqn:Ex, (y p) eqn:Ey, (z p) eqn:Ez; cbn;
    rewrite ?Ex, ?Ey, ?Ez; repeat split.
Qed.

(** A travel pass that completes leaves records only. *)
Lemma travelPass_records (st st' : list slot) :
  travelPass st = (st', Normal) -> exists ps, records st' = Some ps.
Proof.
  revert st'. induction st as [| [p |] rest IH]; intros st' H; simpl in H.
  - injection H as <-. exists []. reflexivity.
  - destruct (travelPass rest) as [rest' c]. injection H as <- ->.
    destruct (IH rest' eq_refl) as [ps Hps].
    exists (computePortalTravelLocation p :: ps). simpl. rewrite Hps.
    reflexivity.
  - discriminate H.
Qed.


Lemma sweep_thrown_in_travelPass (st st' : list slot) :
  derivationSweep st = (st', Thrown) ->
  travelPass st = (st', Thrown).
Proof.
  unfold derivationSweep.
  destruct (travelPass st) as [st1 [|]] eqn:E.
  - destruct (travelPass_records _ E) as [ps Hps]. rewrite Hps.
    discriminate.
  - intro H. injection H as <-. reflexivity.
Qed.

(** The sweep throws exactly when the array holds a [null]. *)
Lemma sweep_thrown_iff (st : list slot) :
  snd (derivationSweep st) = Thrown <-> records st = None.
Proof.
  assert (T : forall l, snd (travelPass l) = Thrown <-> records l = None).
  { induction l as [| [p |] rest IH]; simpl.
    - split; discriminate.
    - destruct (travelPass rest) as [rest' c]. simpl in *.
      destruct (records rest) as [ps |].
      + split; [| discriminate].
        intro H. apply IH in H. discriminate H.
      + split; [reflexivity |]. intros _. apply IH. reflexivity.
    - split; reflexivity. }
  rewrite <- T. unfold derivationSweep.
  destruct (travelPass st) as [st1 [|]] eqn:E; simpl.
  - destruct (travelPass_records _ E) as [ps Hps]. rewrite Hps. simpl.
    split; discriminate.
  - split; reflexivity.
Qed.

(** *** In-place passes *)

Lemma mapi_from_length f i l : List.length (mapi_from f i l) = List.length l.
Proof.
  revert i. induction l as [| p rest IH]; intro i; simpl;
    [reflexivity | rewrite IH; reflexivity].
Qed.

Lemma mapi_from_snoc f i pre p :
  mapi_from f i (pre ++ [p])
  = (mapi_from f i pre ++ [f (i + List.length pre)%nat p])%list.
Proof.
  revert i. induction pre as [| a rest IH]; intro i; simpl.
  - rewrite Nat.add_0_r. reflexivity.
  - rewrite IH. replace (S i + List.length rest)%nat
      with (i + S (List.length rest))%nat by lia. reflexivity.
Qed.

Lemma nth_error_middle (A : Type) (pre : list A) (a : A) (post : list A) :
  nth_error (pre ++ a :: post) (List.length pre) = Some a.
Proof.
  rewrite nth_error_app2 by lia. rewrite Nat.sub_diag. reflexivity.
Qed.

Lemma store_middle (A : Type) (pre : list A) (a v : A) (post : list A) :
  store (List.length pre) v (pre ++ a :: post) = (pre ++ v :: post)%list.
Proof.
  induction pre as [| b rest IH]; simpl; [reflexivity |].
  rewrite IH. reflexivity.
Qed.

Lemma forEach_mapi (body : list portal -> portal -> nat -> portal)
    (f : nat -> portal -> portal) (ps : list portal) :
  (forall pre p post,
      ps = (pre ++ p :: post)%list ->
      body (mapi_from f 0 pre ++ p :: post)%list p (List.length pre)
      = f (List.length pre) p) ->
  forEach body ps = mapi_from f 0 ps.
Proof.
  intro Hbody.
  assert (G : forall post pre,
             ps = (pre ++ post)%list ->
             forEach_from body (List.length post) (List.length pre)
                          (mapi_from f 0 pre ++ post)%list
             = mapi_from f 0 (pre ++ post)%list).
  { induction post as [| p post IH]; intros pre Hps.
    - simpl. rewrite !app_nil_r. reflexivity.
    - simpl.
      rewrite <- (mapi_from_length f 0 pre) at 1.
      rewrite nth_error_middle.
      rewrite (Hbody pre p post Hps).
      rewrite <- (mapi_from_length f 0 pre) at 2.
      rewrite store_middle.
      assert (E : (pre ++ p :: post = (pre ++ [p]) ++ post)%list)
        by (rewrite <- app_assoc; reflexivity).
      rewrite E in Hps |- *.
      specialize (IH (pre ++ [p])%list Hps).
      rewrite mapi_from_snoc, length_app in IH. simpl in IH.
      rewrite <- app_assoc in IH. simpl in IH.
      replace (List.length pre + 1)%nat with (S (List.length pre)) in IH
        by lia.
      exact IH. }
  exact (G ps [] eq_refl).
Qed.

Lemma same_position_refl (p : portal) : same_position p p.
Proof. repeat split. Qed.

Lemma same_position_all_refl (l : list portal) : Forall2 same_position l l.
Proof. induction l; constructor; [apply same_position_refl | assumption]. Qed.

Lemma closest_step_same (tx : float) (ty : coord) (tz : float)
    (tw : option string) (index i : nat) (st' st : search_state)
    (o' o : portal) :
  same_position o' o -> same_search st' st ->
  same_search (closest_step tx ty tz tw index st' o' i)
              (closest_step tx ty tz tw index st o i).
Proof.
  intros (Hn & Hx & Hy & Hz & Hw) Hst. unfold closest_step.
  rewrite Hx, Hy, Hz, Hw.
  destruct (Nat.eqb i index); [exact Hst |].
  destruct (negb (world_is tw (world o))); [exact Hst |].
  destruct (x o) as [ox |]; [| exact Hst].
  destruct (z o) as [oz |]; [| exact Hst].
  destruct (_ || _); [exact Hst |].
  destruct (distance3D _ _ _ _ _ _) as [d3 |]; [| exact Hst].
  destruct Hst as [Hb Hbest]. rewrite Hb.
  destruct (d3 <? snd st)%js.
  - split; [reflexivity | exact Hn].
  - split; assumption.
Qed.

Lemma closest_loop_same (tx : float) (ty : coord) (tz : float)
    (tw : option string) (index : nat) (l' l : list portal) :
  Forall2 same_position l' l ->
  forall i st' st,
    same_search st' st ->
    same_search (closest_loop tx ty tz tw index l' i st')
                (closest_loop tx ty tz tw index l i st).
Proof.
  induction 1 as [| o' o l' l Ho _ IH]; intros i st' st Hst; simpl.
  - exact Hst.
  - apply IH. apply closest_step_same; assumption.
Qed.

Lemma computeClosestPortal_same (l' l : list portal) (p : portal)
    (index : nat) :
  Forall2 same_position l' l ->
  computeClosestPortal l' p index = computeClosestPortal l p index.
Proof.
  intro H. unfold computeClosestPortal.
  destruct (travel_x (travel p)) as [tx |]; [| reflexivity].
  destruct (travel_z (travel p)) as [tz |]; [| reflexivity].
  assert (S0 : same_search (None, Infinity) (None, Infinity))
    by (split; [reflexivity | exact I]).
  pose proof (closest_loop_same tx (travel_y (travel p)) tz
                (travel_world (travel p)) index H 0%nat S0) as R.
  destruct (closest_loop tx _ tz _ index l' 0 _) as [[b' |] d'];
    destruct (closest_loop tx _ tz _ index l 0 _) as [[b |] d];
    destruct R as [Rd Rb]; simpl in Rd, Rb; try contradiction.
  - subst d'. unfold name_or_unnamed. rewrite Rb. reflexivity.
  - reflexivity.
Qed.

Lemma find_same (f : portal -> bool) (l' l : list portal) :
  (forall a b, same_position a b -> f a = f b) ->
  Forall2 same_position l' l ->
  match find f l', find f l with
  | Some a, Some b => same_position a b
  | None, None => True
  | _, _ => False
  end.
Proof.
  intros Hf. induction 1 as [| a b l' l Hab _ IH]; simpl; [exact I |].
  rewrite (Hf a b Hab). destruct (f b); [exact Hab | exact IH].
Qed.

Lemma computeTargetPortal_same (l' l : list portal) (p' p : portal) :
  Forall2 same_position l' l ->
  destination p' = destination p -> travel p' = travel p ->
  computeTargetPortal l' p' = computeTargetPortal l p.
Proof.
  intros H Hd Ht. unfold computeTargetPortal. rewrite Hd, Ht.
  destruct (destination p =? ""); [reflexivity |].
  pose proof (@find_same (fun q => name q =? destination p) l' l) as F.
  destruct (find _ l') as [t' |]; destruct (find _ l) as [t |];
    try (exfalso; apply F; [intros a b (E & _); rewrite E; reflexivity
                           | exact H]).
  - destruct F as (Hn & Hx & Hy & Hz & Hw);
      [intros a b (E & _); rewrite E; reflexivity | exact H |].
    rewrite Hn, Hx, Hy, Hz, Hw. reflexivity.
  - reflexivity.
Qed.

Lemma mapi_from_same (f : nat -> portal -> portal) (l : list portal) :
  (forall i p, same_position (f i p) p) ->
  forall i, Forall2 same_position (mapi_from f i l) l.
Proof.
  intro Hf. induction l as [| p rest IH]; intro i; simpl; constructor.
  - apply Hf.
  - apply IH.
Qed.

Lemma mapi_from_ext (f g : nat -> portal -> portal) (l : list portal) :
  (forall i p, f i p = g i p) ->
  forall i, mapi_from f i l = mapi_from g i l.
Proof.
  intro H. induction l as [| p rest IH]; intro i; simpl;
    [reflexivity | rewrite H, IH; reflexivity].
Qed.

Lemma mapi_from_mapi_from (g f : nat -> portal -> portal)
    (l : list portal) (i : nat) :
  mapi_from g i (mapi_from f i l) = mapi_from (fun j p => g j (f j p)) i l.
Proof.
  revert i. induction l as [| p rest IH]; intro i; simpl;
    [reflexivity | rewrite IH; reflexivity].
Qed.

Lemma closestPass_mapi (ps : list portal) :
  closestPass ps
  = mapi_from (fun i p => set_closest p (computeClosestPortal ps p i)) 0 ps.
Proof.
  unfold closestPass. apply forEach_mapi.
  intros pre p post ->. f_equal.
  apply computeClosestPortal_same.
  apply Forall2_app; [| apply same_position_all_refl].
  apply mapi_from_same. intros i q. repeat split.
Qed.

Lemma targetPass_mapi (ps : list portal) :
  targetPass ps
  = mapi_from (fun _ p => set_target p (computeTargetPortal ps p)) 0 ps.
Proof.
  unfold targetPass. apply forEach_mapi.
  intros pre p post ->. f_equal.
  apply computeTargetPortal_same; try reflexivity.
  apply Forall2_app; [| apply same_position_all_refl].
  apply mapi_from_same. intros i q. repeat split.
Qed.

Lemma travelPass_of_records (st : list slot) (ps : list portal) :
  records st = Some ps ->
  travelPass st = (map Some (map computePortalTravelLocation ps), Normal).
Proof.
  revert ps. induction st as [| [p |] rest IH]; intros ps H; simpl in H.
  - injection H as <-. reflexivity.
  - destruct (records rest) as [qs |]; [| discriminate H].
    injection H as <-. simpl. rewrite (IH qs eq_refl). reflexivity.
  - discriminate H.
Qed.

Lemma records_map_Some (ps : list portal) : records (map Some ps) = Some ps.
Proof.
  induction ps as [| p rest IH]; simpl; [| rewrite IH]; reflexivity.
Qed.

(** Over an array without [null] the three passes complete, and the
    derived fields they leave are those of [derive]: rewriting the records
    in place while the passes run does not change what later callbacks
    compute. *)
Lemma sweep_normal (st : list slot) (ps : list portal) :
  records st = Some ps ->
  derivationSweep st = (map Some (derive ps), Normal).
Proof.
  intro H. unfold derivationSweep.
  rewrite (travelPass_of_records _ H), records_map_Some.
  f_equal. f_equal. unfold derive.
  set (moved := map computePortalTravelLocation ps).
  rewrite targetPass_mapi, closestPass_mapi at 1.
  rewrite mapi_from_mapi_from. apply mapi_from_ext.
  intros i p. cbv beta. f_equal.
  apply computeTargetPortal_same; try reflexivity.
  rewrite closestPass_mapi.
  apply mapi_from_same. intros j q. repeat split.
Qed.

(** The array after the dispatcher is the array after the three passes:
    the displays write to the page only. *)
Lemma dispatcher_array (st : list slot) (pg : page) :
  fst (fst (updateAllPortalCalculations st pg)) = fst (derivationSweep st).
Proof.
  unfold updateAllPortalCalculations.
  destruct (derivationSweep st) as [st1 [|]]; [| reflexivity].
  destruct (updatePortalCardDisplays st1 (page_cards pg)) as [cards [|]];
    [| reflexivity].
  destruct (updateOutputCard _ _ _ _ _ _ _); reflexivity.
Qed.



Lemma nth_error_mapi_from (F : nat -> portal -> portal)
    (l : list portal) :
  forall i k, nth_error (mapi_from F i l) k
              = option_map (F (i + k)%nat) (nth_error l k).
Proof.
  induction l as [| a rest IH]; intros i k.
  - destruct k; reflexivity.
  - destruct k as [| k]; simpl.
    + rewrite Nat.add_0_r. reflexivity.
    + rewrite IH. replace (S i + k)%nat with (i + S k)%nat by lia.
      reflexivity.
Qed.






(** ** The storage layer *)

(** Reading a property of anything but [null] and [undefined] succeeds. *)
Lemma get_succeeds (raw : jsval) (k : string) :
  raw <> JNull -> raw <> JUndefined -> exists v, get raw k = Some v.
Proof.
  intros Hn Hu. destruct raw; try contradiction; eexists; reflexivity.
Qed.

Lemma get_fails (raw : jsval) (k : string) :
  get raw k = None <-> raw = JNull \/ raw = JUndefined.
Proof.
  split.
  - destruct raw; try discriminate; auto.
  - intros [-> | ->]; reflexivity.
Qed.

(** The record [sanitizePortal] builds when no property read throws. *)
Lemma sanitizePortal_fields (raw : jsval)
    (name destination x y z world travel closest target : jsval) :
  get raw "name" = Some name ->
  get raw "destination" = Some destination ->
  get raw "x" = Some x -> get raw "y" = Some y -> get raw "z" = Some z ->
  get raw "world" = Some world ->
  get raw "travel" = Some travel -> get raw "closest" = Some closest ->
  get raw "target" = Some target ->
  sanitizePortal raw =
  JObj
    [("name", if is_string name then name else JStr "");
     ("destination", if is_string destination then destination else JStr "");
     ("x", if Number_isFinite x then x else JNull);
     ("y", if Number_isFinite y then y else JNull);
     ("z", if Number_isFinite z then z else JNull);
     ("world", if is_the_string world WORLD_NETHER
               then JStr WORLD_NETHER else JStr WORLD_OVERWORLD);
     ("travel", or_else travel blank_travel);
     ("closest", or_else closest blank_closest);
     ("target", or_else target blank_target)].
Proof.
  intros Hn Hd Hx Hy Hz Hw Ht Hc Hg.
  unfold sanitizePortal, sanitizePortal_try.
  rewrite Hn, Hd, Hx, Hy, Hz, Hw, Ht, Hc, Hg. reflexivity.
Qed.

Lemma sanitized_string (v : jsval) :
  exists s, (if is_string v then v else JStr "") = JStr s
            /\ (forall s', v = JStr s' -> s = s')
            /\ (is_string v = false -> s = "").
Proof.
  destruct v; try (exists ""; repeat split; intros; congruence).
  exists s. repeat split; intros; simpl in *; congruence.
Qed.

Lemma sanitized_coordinate (v : jsval) :
  let c := if Number_isFinite v then v else JNull in
  (c = JNull \/ exists q, c = JNum (Finite q))
  /\ (forall q, v = JNum (Finite q) -> c = v)
  /\ (Number_isFinite v = false -> c = JNull).
Proof.
  destruct v as [| | b | [q | | |] | s | l | l]; simpl;
    repeat split; intros; try congruence; auto.
  right. exists q. reflexivity.
Qed.

Lemma sanitized_world (v : jsval) :
  let w := if is_the_string v WORLD_NETHER
           then JStr WORLD_NETHER else JStr WORLD_OVERWORLD in
  (w = JStr WORLD_OVERWORLD \/ w = JStr WORLD_NETHER)
  /\ (v <> JStr WORLD_NETHER -> w = JStr WORLD_OVERWORLD)
  /\ (v = JStr WORLD_NETHER -> w = JStr WORLD_NETHER).
Proof.
  cbv zeta. destruct (is_the_string v WORLD_NETHER) eqn:E.
  - split; [right; reflexivity |]. split; [| reflexivity].
    intro Hne. exfalso. apply Hne.
    destruct v; try discriminate E. simpl in E.
    apply String.eqb_eq in E. congruence.
  - split; [left; reflexivity |]. split; [reflexivity |].
    intros ->. discriminate E.
Qed.

(** C9. Whatever the raw record: the sanitized record has a string for
    name and for destination (the raw one if it is a string, the empty
    string otherwise), a finite number or [null] for each coordinate (the
    raw one if it is a finite number, [null] otherwise) and one of the two
    worlds (the Overworld unless the raw world is the Nether); a raw record
    on which reading a property throws gives the blank portal; and every
    record loaded from storage is well formed. *)
Theorem sanitizePortal_well_formed :
  (forall raw,
      let r := sanitizePortal raw in
      well_formed r
      /\ (forall k, k = "name" \/ k = "destination" ->
            (forall s, get raw k = Some (JStr s) -> get r k = Some (JStr s))
            /\ ((forall s, get raw k <> Some (JStr s)) ->
                get r k = Some (JStr "")))
      /\ (forall k, k = "x" \/ k = "y" \/ k = "z" ->
            (forall q, get raw k = Some (JNum (Finite q)) ->
                       get r k = Some (JNum (Finite q)))
            /\ ((forall q, get raw k <> Some (JNum (Finite q))) ->
                get r k = Some JNull))
      /\ (get raw "world" = Some (JStr WORLD_NETHER) ->
          get r "world" = Some (JStr WORLD_NETHER))
      /\ (get raw "world" <> Some (JStr WORLD_NETHER) ->
          get r "world" = Some (JStr WORLD_OVERWORLD))
      /\ (get raw "name" = None -> r = createBlankPortal))
  /\ (forall item loaded,
         loadPortalsFromStorage item = Some loaded ->
         Forall well_formed loaded).
Proof.
  assert (Blank : well_formed createBlankPortal).
  { unfold well_formed, string_field, coordinate_field, world_field.
    simpl. repeat split; eauto. }
  assert (Main : forall raw,
      let r := sanitizePortal raw in
      well_formed r
      /\ (forall k, k = "name" \/ k = "destination" ->
            (forall s, get raw k = Some (JStr s) -> get r k = Some (JStr s))
            /\ ((forall s, get raw k <> Some (JStr s)) ->
                get r k = Some (JStr "")))
      /\ (forall k, k = "x" \/ k = "y" \/ k = "z" ->
            (forall q, get raw k = Some (JNum (Finite q)) ->
                       get r k = Some (JNum (Finite q)))
            /\ ((forall q, get raw k <> Some (JNum (Finite q))) ->
                get r k = Some JNull))
      /\ (get raw "world" = Some (JStr WORLD_NETHER) ->
          get r "world" = Some (JStr WORLD_NETHER))
      /\ (get raw "world" <> Some (JStr WORLD_NETHER) ->
          get r "world" = Some (JStr WORLD_OVERWORLD))
      /\ (get raw "name" = None -> r = createBlankPortal)).
  { intros raw r.
    destruct (get raw "name") as [vn |] eqn:En.
    - assert (Hn : raw <> JNull) by (intros ->; discriminate En).
      assert (Hu : raw <> JUndefined) by (intros ->; discriminate En).
      destruct (get_succeeds "destination" Hn Hu) as [vd Ed].
      destruct (get_succeeds "x" Hn Hu) as [vx Ex].
      destruct (get_succeeds "y" Hn Hu) as [vy Ey].
      destruct (get_succeeds "z" Hn Hu) as [vz Ez].
      destruct (get_succeeds "world" Hn Hu) as [vw Ew].
      destruct (get_succeeds "travel" Hn Hu) as [vt Et].
      destruct (get_succeeds "closest" Hn Hu) as [vc Ec].
      destruct (get_succeeds "target" Hn Hu) as [vg Eg].
      assert (Er : r = _) by exact (sanitizePortal_fields _ En Ed Ex Ey Ez Ew Et Ec Eg).
      clearbody r. subst r.
      destruct (sanitized_string vn) as (sn & Sn & Sn1 & Sn2).
      destruct (sanitized_string vd) as (sd & Sd & Sd1 & Sd2).
      destruct (sanitized_coordinate vx) as (Cx & Cx1 & Cx2).
      destruct (sanitized_coordinate vy) as (Cy & Cy1 & Cy2).
      destruct (sanitized_coordinate vz) as (Cz & Cz1 & Cz2).
      destruct (sanitized_world vw) as (Ww & Ww1 & Ww2).
      cbv zeta in *.
      unfold well_formed, string_field, coordinate_field, world_field.
      cbn [get lookup String.eqb Ascii.eqb Bool.eqb].
      rewrite Sn, Sd.
      split; [| split; [| split; [| split; [| split]]]].
      + split; [eauto |]. split; [eauto |].
        split; [destruct Cx as [-> | [q ->]]; eauto |].
        split; [destruct Cy as [-> | [q ->]]; eauto |].
        split; [destruct Cz as [-> | [q ->]]; eauto |].
        destruct Ww as [-> | ->]; auto.
      + intros k [-> | ->]; cbn [get lookup String.eqb Ascii.eqb Bool.eqb].
        * rewrite En. split.
          -- intros s Hs. rewrite (Sn1 s) by congruence. reflexivity.
          -- intro Hno. rewrite Sn2; [reflexivity |].
             destruct vn; try reflexivity. exfalso. exact (Hno _ eq_refl).
        * rewrite Ed. split.
          -- intros s Hs. rewrite (Sd1 s) by congruence. reflexivity.
          -- intro Hno. rewrite Sd2; [reflexivity |].
             destruct vd; try reflexivity. exfalso. exact (Hno _ eq_refl).
      + intros k [-> | [-> | ->]];
          cbn [get lookup String.eqb Ascii.eqb Bool.eqb].
        * rewrite Ex. split.
          -- intros q Hq. injection Hq as ->. reflexivity.
          -- intro Hno. rewrite Cx2; [reflexivity |].
             destruct vx as [| | | [q | | |] | | |]; try reflexivity.
             exfalso. exact (Hno _ eq_refl).
        * rewrite Ey. split.
          -- intros q Hq. injection Hq as ->. reflexivity.
          -- intro Hno. rewrite Cy2; [reflexivity |].
             destruct vy as [| | | [q | | |] | | |]; try reflexivity.
             exfalso. exact (Hno _ eq_refl).
        * rewrite Ez. split.
          -- intros q Hq. injection Hq as ->. reflexivity.
          -- intro Hno. rewrite Cz2; [reflexivity |].
             destruct vz as [| | | [q | | |] | | |]; try reflexivity.
             exfalso. exact (Hno _ eq_refl).
      + rewrite Ew. intro H. injection H as ->. reflexivity.
      + rewrite Ew. intro H. rewrite Ww1; [reflexivity | congruence].
      + discriminate.
    - assert (Er : r = createBlankPortal).
      { apply get_fails in En. subst r.
        destruct En as [-> | ->]; reflexivity. }
      clearbody r. subst r.
      apply get_fails in En.
      split; [exact Blank |].
      split.
      { intros k Hk. destruct En as [-> | ->]; simpl;
          (split; [discriminate |]); intros _;
          destruct Hk as [-> | ->]; reflexivity. }
      split.
      { intros k Hk. destruct En as [-> | ->]; simpl;
          (split; [discriminate |]); intros _;
          destruct Hk as [-> | [-> | ->]]; reflexivity. }
      split; [destruct En as [-> | ->]; discriminate |].
      split; [reflexivity | reflexivity]. }
  split; [exact Main |].
  intros item loaded H. unfold loadPortalsFromStorage in H.
  destruct item as [[| v] |]; try discriminate H.
  destruct v; try discriminate H. injection H as <-.
  apply Forall_forall. intros r Hin.
  apply in_map_iff in Hin. destruct Hin as (raw & <- & _).
  apply Main.
Qed.

Lemma sanitizePortal_well_formed_witness :
  well_formed (sanitizePortal odd_record)
  /\ get (sanitizePortal odd_record) "name" = Some (JStr "")
  /\ get (sanitizePortal odd_record) "x" = Some JNull
  /\ get (sanitizePortal odd_record) "world" = Some (JStr WORLD_OVERWORLD)
  /\ sanitizePortal JNull = createBlankPortal
  /\ Forall well_formed [sanitizePortal odd_record; sanitizePortal JNull].
Proof.
  destruct (proj1 sanitizePortal_well_formed odd_record)
    as (Hwf & Hs & Hc & _ & Hw & _).
  destruct (proj1 sanitizePortal_well_formed JNull)
    as (_ & _ & _ & _ & _ & Hb).
  split; [exact Hwf |].
  split; [apply (Hs "name"); [left; reflexivity | discriminate] |].
  split; [apply (Hc "x"); [left; reflexivity | discriminate] |].
  split; [apply Hw; discriminate |].
  split; [apply Hb; reflexivity |].
  apply (proj2 sanitizePortal_well_formed
           (Some (Value (JArr [odd_record; JNull])))).
  reflexivity.
Defined.

(** ** The list operations *)

Lemma splice1_length (A : Type) (index : nat) (l : list A) :
  List.length (splice1 index l)
  = if (index <? List.length l)%nat
    then (List.length l - 1)%nat else List.length l.
Proof.
  revert index. induction l as [| a rest IH]; intros [| i]; simpl;
    try reflexivity.
  - lia.
  - rewrite IH.
    change (S i <? S (List.length rest))%nat
      with (i <? List.length rest)%nat.
    destruct (i <? List.length rest)%nat eqn:E; [| reflexivity].
    apply Nat.ltb_lt in E. lia.
Qed.

Lemma deletePortal_nonempty (index : nat) (portals : list jsval) :
  deletePortal index portals <> [].
Proof.
  unfold deletePortal. destruct (splice1 index portals); discriminate.
Qed.

Lemma initializePortals_nonempty (item : option parsed) :
  initializePortals item <> [].
Proof.
  unfold initializePortals.
  destruct (loadPortalsFromStorage item) as [[| p rest] |]; discriminate.
Qed.

Lemma importPortalsFromFile_result (content : parsed)
    (portals : list jsval) :
  (exists imported, content = Value (JArr imported)
                    /\ importPortalsFromFile content portals = imported)
  \/ importPortalsFromFile content portals = portals.
Proof.
  destruct content as [| v]; [right; reflexivity |].
  destruct v; try (right; reflexivity).
  left. eexists. split; reflexivity.
Qed.

(** C6 fails on the code at one operation.  Deleting, resetting and
    initializing leave a list that is not empty, and deleting the only
    portal leaves the blank portal, whose coordinates are [null] and whose
    world is the Overworld; but importing a file that holds the empty array
    replaces the list by the empty list. *)
Theorem import_of_empty_array_empties_list :
  (forall index portals, deletePortal index portals <> [])
  /\ (forall p, deletePortal 0 [p] = [createBlankPortal])
  /\ (get createBlankPortal "x" = Some JNull
      /\ get createBlankPortal "y" = Some JNull
      /\ get createBlankPortal "z" = Some JNull
      /\ get createBlankPortal "world" = Some (JStr WORLD_OVERWORLD))
  /\ (forall portals, resetPortals true portals = [createBlankPortal])
  /\ (forall item, initializePortals item <> [])
  /\ (forall portals, importPortalsFromFile (Value (JArr [])) portals = []).
Proof.
  split; [exact deletePortal_nonempty |].
  split; [reflexivity |].
  split; [repeat split |].
  split; [reflexivity |].
  split; [exact initializePortals_nonempty | reflexivity].
Qed.

(** ** Moving, adding and deleting, further *)

Lemma array_get_middle (pre : list jsval) (a : jsval) (post : list jsval) :
  array_get (pre ++ a :: post) (List.length pre) = a.
Proof.
  unfold array_get. rewrite app_nth2 by lia. rewrite Nat.sub_diag.
  reflexivity.
Qed.

Lemma array_set_middle (pre : list jsval) (a v : jsval)
    (post : list jsval) :
  array_set (List.length pre) v (pre ++ a :: post) = (pre ++ v :: post)%list.
Proof.
  induction pre as [| b rest IH]; simpl; [reflexivity |].
  rewrite IH. reflexivity.
Qed.

Lemma array_set_end (l : list jsval) (v : jsval) :
  array_set (List.length l) v l = (l ++ [v])%list.
Proof.
  induction l as [| b rest IH]; simpl; [reflexivity |].
  rewrite IH. reflexivity.
Qed.

(** Two neighbours, wherever they are in the array. *)
Lemma neighbours (l : list jsval) (i : nat) :
  (i + 1 < List.length l)%nat ->
  exists pre a b post,
    l = (pre ++ a :: b :: post)%list /\ List.length pre = i.
Proof.
  revert i. induction l as [| c rest IH]; intros i Hi; simpl in Hi;
    [lia |].
  destruct i as [| i].
  - destruct rest as [| d rest']; simpl in Hi; [lia |].
    exists [], c, d, rest'. split; reflexivity.
  - destruct (IH i) as (pre & a & b & post & -> & Hlen); [lia |].
    exists (c :: pre), a, b, post. split; [reflexivity |].
    simpl. rewrite Hlen. reflexivity.
Qed.

Lemma array_get_next (pre : list jsval) (a b : jsval)
    (post : list jsval) :
  array_get (pre ++ a :: b :: post) (S (List.length pre)) = b.
Proof.
  unfold array_get. induction pre as [| c rest IH]; simpl;
    [reflexivity | exact IH].
Qed.

Lemma array_set_next (pre : list jsval) (a b v : jsval)
    (post : list jsval) :
  array_set (S (List.length pre)) v (pre ++ a :: b :: post)
  = (pre ++ a :: v :: post)%list.
Proof.
  induction pre as [| c rest IH]; simpl; [reflexivity |].
  simpl in IH. rewrite IH. reflexivity.
Qed.

Lemma movePortalDown_neighbours (pre : list jsval) (a b : jsval)
    (post : list jsval) :
  movePortalDown (List.length pre) (pre ++ a :: b :: post)
  = (pre ++ b :: a :: post)%list.
Proof.
  unfold movePortalDown.
  assert (G : (List.length (pre ++ a :: b :: post)
               <=? List.length pre + 1)%nat = false).
  { apply Nat.leb_gt. rewrite length_app. simpl. lia. }
  rewrite G. cbv zeta.
  replace (List.length pre + 1)%nat with (S (List.length pre)) by lia.
  rewrite array_get_middle, array_get_next, array_set_middle.
  apply array_set_next.
Qed.

Lemma movePortalUp_neighbours (pre : list jsval) (a b : jsval)
    (post : list jsval) :
  movePortalUp (S (List.length pre)) (pre ++ a :: b :: post)
  = (pre ++ b :: a :: post)%list.
Proof.
  unfold movePortalUp.
  change (S (List.length pre) <=? 0)%nat with false. cbv iota zeta.
  replace (S (List.length pre) - 1)%nat with (List.length pre) by lia.
  rewrite array_get_middle, array_get_next, array_set_middle.
  apply array_set_next.
Qed.

(** X1. Moving the portal at [index] down, when it has a successor, moves
    these two records and no other: the array handed to the re-render is a
    permutation of the old one of the same length, the two records have
    changed places and every other index holds the record it held.  The
    re-render then rewrites derived fields of the records where they
    are. *)
Theorem movePortalDown_swaps (index : nat) (portals : list jsval) :
  (index + 1 < List.length portals)%nat ->
  let moved := movePortalDown index portals in
  Permutation portals moved
  /\ List.length moved = List.length portals
  /\ nth_error moved index = nth_error portals (index + 1)
  /\ nth_error moved (index + 1) = nth_error portals index
  /\ (forall j, j <> index -> j <> (index + 1)%nat ->
                nth_error moved j = nth_error portals j).
Proof.
  intros Hi moved. subst moved.
  destruct (@neighbours portals index Hi) as (pre & a & b & post & -> & <-).
  rewrite movePortalDown_neighbours.
  split; [apply Permutation_app_head; apply perm_swap |].
  split; [rewrite !length_app; reflexivity |].
  assert (Ea : forall u v, (pre ++ u :: v :: post
                            = (pre ++ [u]) ++ v :: post)%list)
    by (intros; rewrite <- app_assoc; reflexivity).
  assert (La : forall u, (List.length pre + 1
                          = List.length (pre ++ [u]))%nat)
    by (intros; rewrite length_app; reflexivity).
  split; [| split].
  - rewrite nth_error_app2 by lia. rewrite Nat.sub_diag. simpl.
    rewrite (Ea a b), (La a).
    rewrite nth_error_app2 by lia. rewrite Nat.sub_diag. reflexivity.
  - rewrite (Ea b a), (La b).
    rewrite nth_error_app2 by lia. rewrite Nat.sub_diag. simpl.
    rewrite nth_error_app2 by lia. rewrite Nat.sub_diag. reflexivity.
  - intros j Hj Hj'.
    destruct (Nat.lt_ge_cases j (List.length pre)) as [Hlt | Hge].
    + rewrite !nth_error_app1 by exact Hlt. reflexivity.
    + rewrite !nth_error_app2 by exact Hge.
      destruct (j - List.length pre)%nat as [| [| k]] eqn:E;
        [lia | lia | reflexivity].
Qed.

(** X2. Moving down twice at the same index gives the array back, whatever
    the index; and where a portal has a successor, moving the successor up
    is moving the portal down. *)
Theorem movePortalDown_involutive (index : nat) (portals : list jsval) :
  movePortalDown index (movePortalDown index portals) = portals
  /\ ((index + 1 < List.length portals)%nat ->
      movePortalUp (S index) portals = movePortalDown index portals
      /\ movePortalDown index (movePortalUp (S index) portals) = portals).
Proof.
  assert (Out : (List.length portals <= index + 1)%nat ->
                movePortalDown index portals = portals).
  { intro H. unfold movePortalDown. apply Nat.leb_le in H. rewrite H.
    reflexivity. }
  destruct (Nat.lt_ge_cases (index + 1) (List.length portals))
    as [Hi | Hi].
  - destruct (@neighbours portals index Hi) as (pre & a & b & post & -> & <-).
    rewrite movePortalUp_neighbours, !movePortalDown_neighbours.
    split; [reflexivity |]. intros _. split; reflexivity.
  - rewrite !(Out Hi). split; [reflexivity | lia].
Qed.

(** X3. [movePortalUp] has no guard at the upper end: called with the
    length of a non-empty array it makes the array one longer, with
    [undefined] in the place of the last portal and the last portal after
    it. *)
Theorem movePortalUp_past_the_end (front : list jsval) (last : jsval) :
  movePortalUp (List.length (front ++ [last])) (front ++ [last])
  = (front ++ [JUndefined; last])%list.
Proof.
  unfold movePortalUp. rewrite length_app. simpl.
  replace (List.length front + 1)%nat with (S (List.length front)) by lia.
  change (S (List.length front) <=? 0)%nat with false. cbv iota zeta.
  replace (S (List.length front) - 1)%nat with (List.length front) by lia.
  rewrite array_get_middle.
  unfold array_get at 1. rewrite nth_overflow
    by (rewrite length_app; simpl; lia).
  rewrite array_set_middle.
  replace (S (List.length front))
    with (List.length (front ++ [JUndefined])%list)
    by (rewrite length_app; simpl; lia).
  rewrite array_set_end, <- app_assoc. reflexivity.
Qed.

Lemma splice1_firstn_skipn (A : Type) (index : nat) (l : list A) :
  splice1 index l = (firstn index l ++ skipn (S index) l)%list.
Proof.
  revert index. induction l as [| a rest IH]; intros [| i]; simpl;
    try reflexivity.
  rewrite IH. reflexivity.
Qed.

(** X4. Deleting removes one record and moves no other out of order:
    whenever a portal is left, the array handed to the re-render is the
    records before [index] followed by those after it, one shorter if
    [index] was inside the array and as long as before if it was not.  The
    re-render then rewrites derived fields of the records that are
    left. *)
Theorem deletePortal_keeps_the_others (index : nat)
    (portals : list jsval) :
  (2 <= List.length portals \/ List.length portals <= index)%nat ->
  portals <> [] ->
  deletePortal index portals
  = (firstn index portals ++ skipn (S index) portals)%list
  /\ ((index < List.length portals)%nat ->
      S (List.length (deletePortal index portals)) = List.length portals)
  /\ ((List.length portals <= index)%nat ->
      deletePortal index portals = portals).
Proof.
  intros Hlen Hne. unfold deletePortal.
  pose proof (splice1_length index portals) as L.
  rewrite <- splice1_firstn_skipn.
  destruct (splice1 index portals) as [| a rest] eqn:E.
  - exfalso. simpl in L.
    destruct (index <? List.length portals)%nat eqn:B.
    + apply Nat.ltb_lt in B. lia.
    + destruct portals; [congruence | simpl in L; lia].
  - split; [reflexivity |]. split.
    + intro Hi. pose proof Hi as Hb. apply Nat.ltb_lt in Hb.
      rewrite Hb in L. simpl in L |- *. lia.
    + intro Hi. rewrite <- E, splice1_firstn_skipn.
      rewrite firstn_all2 by exact Hi.
      rewrite skipn_all2 by lia. apply app_nil_r.
Qed.

Lemma movePortalDown_swaps_witness :
  Permutation three_records (movePortalDown 0 three_records)
  /\ nth_error (movePortalDown 0 three_records) 0 = Some (JStr "b").
Proof.
  destruct (@movePortalDown_swaps 0 three_records) as (Hp & _ & H0 & _).
  - simpl. lia.
  - split; [exact Hp | exact H0].
Defined.

Lemma movePortalDown_involutive_witness :
  movePortalUp 1 three_records = movePortalDown 0 three_records.
Proof.
  apply (proj2 (movePortalDown_involutive 0 three_records)).
  simpl. lia.
Defined.

Lemma deletePortal_keeps_the_others_witness :
  deletePortal 1 three_records = [JStr "a"; JStr "c"].
Proof.
  apply (@deletePortal_keeps_the_others 1 three_records).
  - left. simpl. lia.
  - discriminate.
Defined.

(** ** The storage layer, further *)

Lemma sanitized_string_again (v : jsval) :
  let e := if is_string v then v else JStr "" in
  (if is_string e then e else JStr "") = e.
Proof. destruct v; reflexivity. Qed.

Lemma sanitized_coordinate_again (v : jsval) :
  let e := if Number_isFinite v then v else JNull in
  (if Number_isFinite e then e else JNull) = e.
Proof. destruct v as [| | b | [q | | |] | s | l | l]; reflexivity. Qed.

Lemma sanitized_world_again (v : jsval) :
  let e := if is_the_string v WORLD_NETHER
           then JStr WORLD_NETHER else JStr WORLD_OVERWORLD in
  (if is_the_string e WORLD_NETHER
   then JStr WORLD_NETHER else JStr WORLD_OVERWORLD) = e.
Proof. cbv zeta. destruct (is_the_string v WORLD_NETHER); reflexivity. Qed.

Lemma or_else_again (v blank : jsval) :
  truthy blank = true -> or_else (or_else v blank) blank = or_else v blank.
Proof.
  intro Hb. unfold or_else. destruct (truthy v) eqn:E.
  - rewrite E. reflexivity.
  - rewrite Hb. reflexivity.
Qed.

(** The record [sanitizePortal] returns: the blank portal, or the nine
    sanitized fields of the raw record. *)
Lemma sanitizePortal_cases (raw : jsval) :
  sanitizePortal raw = createBlankPortal
  \/ exists vn vd vx vy vz vw vt vc vg,
      sanitizePortal raw =
      JObj
        [("name", if is_string vn then vn else JStr "");
         ("destination", if is_string vd then vd else JStr "");
         ("x", if Number_isFinite vx then vx else JNull);
         ("y", if Number_isFinite vy then vy else JNull);
         ("z", if Number_isFinite vz then vz else JNull);
         ("world", if is_the_string vw WORLD_NETHER
                   then JStr WORLD_NETHER else JStr WORLD_OVERWORLD);
         ("travel", or_else vt blank_travel);
         ("closest", or_else vc blank_closest);
         ("target", or_else vg blank_target)].
Proof.
  destruct (get raw "name") as [vn |] eqn:En.
  - right.
    assert (Hn : raw <> JNull) by (intros ->; discriminate En).
    assert (Hu : raw <> JUndefined) by (intros ->; discriminate En).
    destruct (get_succeeds "destination" Hn Hu) as [vd Ed].
    destruct (get_succeeds "x" Hn Hu) as [vx Ex].
    destruct (get_succeeds "y" Hn Hu) as [vy Ey].
    destruct (get_succeeds "z" Hn Hu) as [vz Ez].
    destruct (get_succeeds "world" Hn Hu) as [vw Ew].
    destruct (get_succeeds "travel" Hn Hu) as [vt Et].
    destruct (get_succeeds "closest" Hn Hu) as [vc Ec].
    destruct (get_succeeds "target" Hn Hu) as [vg Eg].
    exists vn, vd, vx, vy, vz, vw, vt, vc, vg.
    exact (sanitizePortal_fields _ En Ed Ex Ey Ez Ew Et Ec Eg).
  - left. apply get_fails in En. destruct En as [-> | ->]; reflexivity.
Qed.

Lemma sanitizePortal_twice (raw : jsval) :
  sanitizePortal (sanitizePortal raw) = sanitizePortal raw.
Proof.
  destruct (sanitizePortal_cases raw)
    as [-> | (vn & vd & vx & vy & vz & vw & vt & vc & vg & ->)].
  - reflexivity.
  - unfold sanitizePortal at 1. unfold sanitizePortal_try.
    cbn [get lookup String.eqb Ascii.eqb Bool.eqb].
    rewrite (sanitized_string_again vn), (sanitized_string_again vd).
    rewrite (sanitized_coordinate_again vx), (sanitized_coordinate_again vy),
      (sanitized_coordinate_again vz).
    rewrite (sanitized_world_again vw).
    rewrite !or_else_again by reflexivity.
    reflexivity.
Qed.

(** X5. Sanitizing is idempotent: a sanitized record is sanitized to
    itself, whatever the raw record was, and so is every record of a
    loaded list. *)
Theorem sanitizePortal_idempotent :
  (forall raw, sanitizePortal (sanitizePortal raw) = sanitizePortal raw)
  /\ (forall item loaded,
         loadPortalsFromStorage item = Some loaded ->
         map sanitizePortal loaded = loaded).
Proof.
  split; [exact sanitizePortal_twice |].
  intros item loaded H. unfold loadPortalsFromStorage in H.
  destruct item as [[| v] |]; try discriminate H.
  destruct v; try discriminate H. injection H as <-.
  rewrite map_map. apply map_ext. exact sanitizePortal_twice.
Qed.

Lemma sanitizePortal_idempotent_witness :
  map sanitizePortal [sanitizePortal odd_record; sanitizePortal JNull]
  = [sanitizePortal odd_record; sanitizePortal JNull].
Proof.
  apply (proj2 sanitizePortal_idempotent
           (Some (Value (JArr [odd_record; JNull])))).
  reflexivity.
Defined.

Lemma sanitizePortal_is_well_formed (raw : jsval) :
  well_formed (sanitizePortal raw).
Proof.
  unfold well_formed, string_field, coordinate_field, world_field.
  destruct (sanitizePortal_cases raw)
    as [-> | (vn & vd & vx & vy & vz & vw & vt & vc & vg & ->)].
  - simpl. repeat split; eauto.
  - cbn [get lookup String.eqb Ascii.eqb Bool.eqb].
    destruct (sanitized_string vn) as (sn & -> & _).
    destruct (sanitized_string vd) as (sd & -> & _).
    destruct (sanitized_coordinate vx) as (Cx & _).
    destruct (sanitized_coordinate vy) as (Cy & _).
    destruct (sanitized_coordinate vz) as (Cz & _).
    destruct (sanitized_world vw) as (Ww & _).
    cbv zeta in *.
    split; [eauto |]. split; [eauto |].
    split; [destruct Cx as [-> | [q ->]]; eauto |].
    split; [destruct Cy as [-> | [q ->]]; eauto |].
    split; [destruct Cz as [-> | [q ->]]; eauto |].
    destruct Ww as [-> | ->]; auto.
Qed.

Lemma initializePortals_cases (item : option parsed) :
  initializePortals item = [createBlankPortal]
  \/ exists elems,
      elems <> [] /\ initializePortals item = map sanitizePortal elems.
Proof.
  unfold initializePortals, loadPortalsFromStorage.
  destruct item as [[| v] |]; try (left; reflexivity).
  destruct v; try (left; reflexivity).
  destruct elems as [| e rest]; [left; reflexivity |].
  right. exists (e :: rest). split; [discriminate | reflexivity].
Qed.

(** X6. Whatever the storage holds, every record of the list
    [initializePortals] sets is well formed. *)
Theorem initializePortals_well_formed (item : option parsed) :
  Forall well_formed (initializePortals item).
Proof.
  destruct (initializePortals_cases item) as [-> | (elems & _ & ->)].
  - constructor; [| constructor].
    exact (sanitizePortal_is_well_formed JNull).
  - apply Forall_forall. intros r Hin.
    apply in_map_iff in Hin. destruct Hin as (raw & <- & _).
    apply sanitizePortal_is_well_formed.
Qed.

(** X7. The list [initializePortals] sets is a fixed point of loading: with
    that list in storage, [loadPortalsFromStorage] returns it and
    [initializePortals] sets it again. *)
Theorem initializePortals_reload (item : option parsed) :
  let portals := initializePortals item in
  loadPortalsFromStorage (Some (Value (JArr portals))) = Some portals
  /\ initializePortals (Some (Value (JArr portals))) = portals.
Proof.
  intro portals.
  assert (E : map sanitizePortal portals = portals).
  { subst portals.
    destruct (initializePortals_cases item) as [-> | (elems & _ & ->)].
    - reflexivity.
    - rewrite map_map. apply map_ext. intro raw.
      apply sanitizePortal_twice. }
  assert (Hne : portals <> []) by apply initializePortals_nonempty.
  clearbody portals. unfold initializePortals, loadPortalsFromStorage.
  rewrite E. split; [reflexivity |].
  destruct portals; [contradiction | reflexivity].
Qed.

(** X8. The record [addPortalFromTopInputs] appends is sanitized to itself
    exactly when each coordinate input is empty or a finite number and the
    world is one of the two worlds; it is always appended at the end. *)
Theorem added_portal_survives_reload (name destination : string)
    (x y z : option number) (topWorld : string) (portals : list jsval) :
  let added :=
    addPortalFromTopInputs name destination x y z topWorld portals in
  let record := last added JUndefined in
  added = (portals ++ [record])%list
  /\ (sanitizePortal record = record <->
      kept_by_reload x /\ kept_by_reload y /\ kept_by_reload z
      /\ (topWorld = WORLD_OVERWORLD \/ topWorld = WORLD_NETHER)).
Proof.
  intros added record. subst record added.
  unfold addPortalFromTopInputs. rewrite last_last.
  split; [reflexivity |].
  unfold sanitizePortal, sanitizePortal_try.
  cbn [get lookup String.eqb Ascii.eqb Bool.eqb is_string is_the_string].
  assert (C : forall v,
             (if Number_isFinite (input_coordinate v)
              then input_coordinate v else JNull) = input_coordinate v
             <-> kept_by_reload v).
  { intros [[q | | |] |]; unfold kept_by_reload; simpl; split;
      try (intros [H | [q' H]]); try intro H; try discriminate;
      try reflexivity; eauto. }
  assert (Wd : (if topWorld =? WORLD_NETHER
                then JStr WORLD_NETHER else JStr WORLD_OVERWORLD)
               = JStr topWorld
               <-> topWorld = WORLD_OVERWORLD \/ topWorld = WORLD_NETHER).
  { destruct (topWorld =? WORLD_NETHER) eqn:E.
    - apply String.eqb_eq in E. subst. split; auto.
    - apply String.eqb_neq in E. split.
      + intro H. left. congruence.
      + intros [-> | ->]; [reflexivity | contradiction]. }
  split.
  - intro H. injection H as Hx Hy Hz Hw.
    repeat split; [apply C | apply C | apply C | apply Wd]; assumption.
  - intros (Hx & Hy & Hz & Hw).
    apply C in Hx, Hy, Hz. apply Wd in Hw.
    rewrite Hx, Hy, Hz, Hw. reflexivity.
Qed.

Lemma added_portal_survives_reload_witness :
  sanitizePortal
    (last (addPortalFromTopInputs "Hub" "" (Some (Finite 8)) None
                                  (Some (Finite 16)) WORLD_NETHER
                                  three_records)
          JUndefined)
  = last (addPortalFromTopInputs "Hub" "" (Some (Finite 8)) None
                                 (Some (Finite 16)) WORLD_NETHER
                                 three_records)
         JUndefined.
Proof.
  apply (proj2 (@added_portal_survives_reload
                  "Hub" "" (Some (Finite 8)) None (Some (Finite 16))
                  WORLD_NETHER three_records)).
  unfold kept_by_reload. repeat split; eauto.
Defined.

(** ** The math helpers, further *)

Lemma Qfloor_fixed_iff (q : Q) : inject_Z (Qfloor q) == q <-> is_integer q.
Proof.
  unfold is_integer. split.
  - intro H. exists (Qfloor q). symmetry. exact H.
  - intros [k Hk]. rewrite (Qfloor_comp _ _ Hk), Qfloor_Z.
    symmetry. exact Hk.
Qed.

(** Where the multiplication by 8 is exact, the division by 8 of the
    product is exact too and gives the number back. *)
Lemma fmul_8_fdiv_8 (v : float) :
  multiplies_exactly v = true -> (v * fl 8 / fl 8)%js = v.
Proof.
  destruct v as [s | s | | s m e]; try discriminate; intro H.
  - destruct s; reflexivity.
  - destruct (@normal_between_finite (-1074) 968 s m e H) as [Hd He].
    rewrite (@fmul_8_finite s m e Hd He).
    rewrite (@fdiv_8_finite s m (e + 3) Hd) by lia.
    f_equal. lia.
Qed.

(** X9. For coordinates that are zero or normal numbers of magnitude less
    than [2^1021], Nether to Overworld and back gives the floor of each
    coordinate: the coordinate itself exactly when it is an integer. *)
Theorem convertCoords_reverse_round_trip (cx cz : float) :
  multiplies_exactly cx = true -> multiplies_exactly cz = true ->
  let there := convertCoords (Some cx) (Some cz)
                             WORLD_NETHER WORLD_OVERWORLD in
  convertCoords (xz_x there) (xz_z there) WORLD_OVERWORLD WORLD_NETHER
  = mkXZ (Some (Math_floor cx)) (Some (Math_floor cz))
  /\ is_floor (SF2Q cx) (SF2Q (Math_floor cx))
  /\ is_floor (SF2Q cz) (SF2Q (Math_floor cz))
  /\ (SF2Q (Math_floor cx) == SF2Q cx <-> is_integer (SF2Q cx))
  /\ (SF2Q (Math_floor cz) == SF2Q cz <-> is_integer (SF2Q cz)).
Proof.
  intros Hx Hz there. subst there. split.
  - cbn [convertCoords String.eqb Ascii.eqb Bool.eqb andb xz_x xz_z
         WORLD_NETHER WORLD_OVERWORLD].
    rewrite (fmul_8_fdiv_8 _ Hx), (fmul_8_fdiv_8 _ Hz). reflexivity.
  - split; [apply Math_floor_is_floor |].
    split; [apply Math_floor_is_floor |].
    split; rewrite Math_floor_spec; apply Qfloor_fixed_iff.
Qed.

Lemma convertCoords_reverse_round_trip_witness :
  convertCoords (Some (fl 24)) (Some (dec 5 2 * fl 8)%js)
                WORLD_OVERWORLD WORLD_NETHER
  = mkXZ (Some (fl 3)) (Some (fl 2))
  /\ is_integer (SF2Q (fl 3)).
Proof.
  destruct (@convertCoords_reverse_round_trip (fl 3) (dec 5 2)
              eq_refl eq_refl) as (E & _ & _ & I & _).
  split; [exact E |]. apply I. reflexivity.
Defined.

(** X10. For coordinates that are zero or normal numbers of magnitude
    [2^-1019] at least, Overworld to Nether and back never moves a
    coordinate up and moves it down by less than 8. *)
Theorem convertCoords_round_trip_error (cx cz : float) :
  divides_exactly cx = true -> divides_exactly cz = true ->
  let there := convertCoords (Some cx) (Some cz)
                             WORLD_OVERWORLD WORLD_NETHER in
  exists rx rz,
    convertCoords (xz_x there) (xz_z there) WORLD_NETHER WORLD_OVERWORLD
    = mkXZ (Some rx) (Some rz)
    /\ is_finite rx = true /\ is_finite rz = true
    /\ SF2Q rx <= SF2Q cx /\ SF2Q cx < SF2Q rx + 8
    /\ SF2Q rz <= SF2Q cz /\ SF2Q cz < SF2Q rz + 8.
Proof.
  intros Hx Hz there.
  destruct (round_trip_value _ Hx) as [Fx Vx].
  destruct (round_trip_value _ Hz) as [Fz Vz].
  exists (Math_floor (cx / fl 8) * fl 8)%js,
         (Math_floor (cz / fl 8) * fl 8)%js.
  split; [reflexivity |]. split; [exact Fx |]. split; [exact Fz |].
  assert (B : forall q, inject_Z (Qfloor (q / 8)) * 8 <= q
                        /\ q < inject_Z (Qfloor (q / 8)) * 8 + 8).
  { intro q.
    pose proof (Qfloor_le (q / 8)) as Hl.
    pose proof (Qlt_floor (q / 8)) as Hu.
    rewrite inject_Z_plus in Hu.
    change (inject_Z 1) with 1 in Hu.
    set (f := inject_Z (Qfloor (q / 8))) in *.
    assert (E : q / 8 * 8 == q) by field.
    set (e := q / 8) in *.
    split; lra. }
  rewrite Vx, Vz.
  destruct (B (SF2Q cx)) as [Lx Ux]. destruct (B (SF2Q cz)) as [Lz Uz].
  repeat split; assumption.
Qed.

Lemma convertCoords_round_trip_error_witness :
  exists rx rz,
    convertCoords (Some (fl 1)) (Some (fl (-2)))
                  WORLD_NETHER WORLD_OVERWORLD
    = mkXZ (Some rx) (Some rz)
    /\ SF2Q rx <= SF2Q (fl 12) /\ SF2Q (fl (-9)) < SF2Q rz + 8.
Proof.
  destruct (@convertCoords_round_trip_error (fl 12) (fl (-9))
              eq_refl eq_refl)
    as (rx & rz & E & _ & _ & Lx & _ & _ & Uz).
  exists rx, rz. repeat split; assumption.
Defined.

(** ** The derivations, further *)

Lemma closest_step_paired (tx : float) (ty : coord) (tz : float)
    (tw : option string) (index i : nat) (st : search_state)
    (other : portal) :
  paired st -> paired (closest_step tx ty tz tw index st other i).
Proof.
  intro H. unfold closest_step.
  destruct (Nat.eqb i index); [exact H |].
  destruct (negb _); [exact H |].
  destruct (x other); [| exact H]. destruct (z other); [| exact H].
  destruct (_ || _); [exact H |].
  destruct (distance3D _ _ _ _ _ _) as [d3 |] eqn:E; [| exact H].
  destruct (d3 <? snd st)%js eqn:L; [| exact H].
  exact (fltb_Infinity _ _ L).
Qed.

Lemma closest_loop_paired (tx : float) (ty : coord) (tz : float)
    (tw : option string) (index : nat) (l : list portal) :
  forall i st, paired st -> paired (closest_loop tx ty tz tw index l i st).
Proof.
  induction l as [| other rest IH]; intros i st H; simpl; [exact H |].
  apply IH. apply closest_step_paired. exact H.
Qed.

Lemma name_or_unnamed_not_empty (p : portal) : name_or_unnamed p <> "".
Proof.
  unfold name_or_unnamed. destruct (name p =? "") eqn:E.
  - discriminate.
  - apply String.eqb_neq. exact E.
Qed.

Lemma below_Infinity (d : float) :
  (d <? Infinity)%js = true ->
  is_nan d = false /\ d <> Infinity
  /\ (is_finite d = true \/ d = S754_infinity true).
Proof.
  destruct d as [s | [|] | | s m e]; try discriminate; intros _;
    (split; [reflexivity |]); (split; [discriminate |]); auto.
Qed.

(** X14. Whatever the list and the portal, the closest result is unset in
    both fields or set in both: a name that is not empty with a distance
    that is less than [Infinity], because the running minimum starts at
    [Infinity] and is only replaced by what is less; so the distance is a
    number that is neither [NaN] nor [Infinity]. *)
Theorem computeClosestPortal_paired (portals : list portal) (p : portal)
    (index : nat) :
  computeClosestPortal portals p index = closest_unset
  \/ exists n d,
      computeClosestPortal portals p index = mkClosest (Some n) (Some d)
      /\ n <> "" /\ (d <? Infinity)%js = true
      /\ is_nan d = false /\ d <> Infinity.
Proof.
  unfold computeClosestPortal.
  destruct (travel_x (travel p)) as [tx |]; [| left; reflexivity].
  destruct (travel_z (travel p)) as [tz |]; [| left; reflexivity].
  pose proof (@closest_loop_paired tx (travel_y (travel p)) tz
                (travel_world (travel p)) index portals 0%nat
                (None, Infinity) eq_refl) as H.
  destruct (closest_loop _ _ _ _ _ _ _ _) as [[best |] d];
    cbn [paired] in H.
  - right. exists (name_or_unnamed best), d.
    split; [reflexivity |]. split; [apply name_or_unnamed_not_empty |].
    split; [exact H |].
    destruct (below_Infinity _ H) as (N & I & _). split; assumption.
  - left. reflexivity.
Qed.

Lemma closest_loop_own_entry (tx : float) (ty : coord) (tz : float)
    (tw : option string) (index : nat) (q : portal) (l : list portal) :
  forall k i st,
    index = (i + k)%nat ->
    closest_loop tx ty tz tw index (store k q l) i st
    = closest_loop tx ty tz tw index l i st.
Proof.
  induction l as [| a rest IH]; intros k i st Hk.
  - destruct k; reflexivity.
  - destruct k as [| k]; simpl.
    + unfold closest_step. replace (Nat.eqb i index) with true
        by (symmetry; apply Nat.eqb_eq; lia).
      reflexivity.
    + apply IH. lia.
Qed.

(** X15. The closest portal of a portal does not depend on what the list
    holds at the portal's own index: a portal is never its own closest. *)
Theorem computeClosestPortal_skips_own_entry (portals : list portal)
    (p q : portal) (index : nat) :
  computeClosestPortal (store index q portals) p index
  = computeClosestPortal portals p index.
Proof.
  unfold computeClosestPortal.
  destruct (travel_x (travel p)) as [tx |]; [| reflexivity].
  destruct (travel_z (travel p)) as [tz |]; [| reflexivity].
  rewrite closest_loop_own_entry by reflexivity. reflexivity.
Qed.

(** What a numeric target distance tells: the first portal of that name, in
    the travel world, inside the square, at that distance. *)
Lemma numeric_target (portals : list portal) (p : portal)
    (n : option string) (d : float) :
  computeTargetPortal portals p = mkTarget n (TDist d) ->
  exists t tx ty tz gx gy gz,
    find (fun q => name q =? destination p) portals = Some t
    /\ n = Some (name t) /\ name t = destination p
    /\ travel_x (travel p) = Some tx /\ travel_y (travel p) = Some ty
    /\ travel_z (travel p) = Some tz
    /\ travel_world (travel p) = Some (world t)
    /\ x t = Some gx /\ y t = Some gy /\ z t = Some gz
    /\ within (Math_abs (gx - tx)%js) (radius (world t)) = true
    /\ within (Math_abs (gz - tz)%js) (radius (world t)) = true
    /\ d = euclid tx ty tz gx gy gz.
Proof.
  unfold computeTargetPortal.
  destruct (destination p =? ""); [discriminate |].
  destruct (find _ portals) as [t |] eqn:Ef; [| discriminate].
  destruct (x t) as [gx |] eqn:Ex; [| discriminate].
  destruct (z t) as [gz |] eqn:Ez; [| discriminate].
  destruct (travel_x (travel p)) as [tx |] eqn:Etx; [| discriminate].
  destruct (travel_z (travel p)) as [tz |] eqn:Etz; [| discriminate].
  destruct (world_is _ _) eqn:Ew; cbn [negb]; [| discriminate].
  unfold world_is in Ew.
  destruct (travel_world (travel p)) as [w |] eqn:Etw; [| discriminate].
  apply String.eqb_eq in Ew. subst w.
  rewrite maxRange_radius.
  destruct (Math_abs (gx - tx) >? radius (world t))%js eqn:Bx;
    [discriminate |].
  destruct (Math_abs (gz - tz) >? radius (world t))%js eqn:Bz;
    [discriminate |].
  cbn [orb].
  destruct (travel_y (travel p)) as [ty |] eqn:Ety;
    [| destruct (y t); discriminate].
  destruct (y t) as [gy |] eqn:Ey; [| discriminate].
  cbv [distance3D]. intro H. injection H as <- <-.
  pose proof (find_some _ _ Ef) as [_ Hn]. apply String.eqb_eq in Hn.
  exists t, tx, ty, tz, gx, gy, gz.
  unfold within. rewrite Bx, Bz.
  repeat split; try reflexivity; assumption.
Qed.

(** X16. A numeric target distance is only given for the first portal
    named by the destination, when it has a complete position, lies in
    the travel world of the portal, and the computed [|x - tx|] and
    [|z - tz|] are not greater than the radius; the number is the distance
    [distance3D] computes between the travel location and that portal. *)
Theorem numeric_target_is_reachable (portals : list portal) (p : portal)
    (n : option string) (d : float) :
  computeTargetPortal portals p = mkTarget n (TDist d) ->
  exists t tx ty tz gx gy gz,
    find (fun q => name q =? destination p) portals = Some t
    /\ n = Some (name t)
    /\ travel p = mkTravel (Some tx) (Some ty) (Some tz) (Some (world t))
    /\ (x t, y t, z t) = (Some gx, Some gy, Some gz)
    /\ (Math_abs (gx - tx) >? radius (world t))%js = false
    /\ (Math_abs (gz - tz) >? radius (world t))%js = false
    /\ distance3D (Some tx) (Some ty) (Some tz) (x t) (y t) (z t) = Some d.
Proof.
  intro H.
  destruct (numeric_target _ _ H)
    as (t & tx & ty & tz & gx & gy & gz & Hf & Hn & _ & Htx & Hty & Htz
        & Htw & Hx & Hy & Hz & Bx & Bz & ->).
  exists t, tx, ty, tz, gx, gy, gz.
  split; [exact Hf |]. split; [exact Hn |].
  split; [revert Htx Hty Htz Htw; destruct (travel p); simpl; intros;
          subst; reflexivity |].
  split; [rewrite Hx, Hy, Hz; reflexivity |].
  unfold within in Bx, Bz. apply negb_true_iff in Bx, Bz.
  split; [exact Bx |]. split; [exact Bz |].
  rewrite Hx, Hy, Hz. reflexivity.
Qed.

Lemma numeric_target_is_reachable_witness :
  exists t tx gx,
    find (fun q => name q =? destination commuter) [commuter; station]
    = Some t
    /\ travel_x (travel commuter) = Some tx /\ x t = Some gx
    /\ (Math_abs (gx - tx) >? radius (world t))%js = false.
Proof.
  destruct (@numeric_target_is_reachable [commuter; station] commuter
              (Some "C") (fl 5) eq_refl)
    as (t & tx & ty & tz & gx & gy & gz & Hf & _ & Ht & Hp & Bx & _).
  exists t, tx, gx. split; [exact Hf |].
  split; [rewrite Ht; reflexivity |].
  split; [congruence | exact Bx].
Defined.

(** The edge of the square is where the rounded difference reaches the
    radius: the portal "T" at x = 128.8 is a numeric target, at distance
    128, of the portal whose travel location is at x = 0.8, although the
    two are more than 128 apart. *)
Example target_at_the_rounded_edge :
  computeTargetPortal [edge_a; edge_t] edge_a
  = mkTarget (Some "T") (TDist (fl 128))
  /\ SF2Q (fl 128) < SF2Q (dec 1288 10) - SF2Q (dec 8 10).
Proof. split; reflexivity. Qed.

(** X17. The travel location is unset exactly for an incomplete position;
    otherwise it carries [y], its world is one of the two worlds and is
    never the portal's own world.  Deriving it again changes nothing. *)
Theorem travel_location_shape (p : portal) :
  (complete p = false ->
   travel (computePortalTravelLocation p) = travel_unset)
  /\ (complete p = true ->
      exists tx tz w,
        travel (computePortalTravelLocation p)
        = mkTravel (Some tx) (y p) (Some tz) (Some w)
        /\ (w = WORLD_OVERWORLD \/ w = WORLD_NETHER))
  /\ travel_world (travel (computePortalTravelLocation p))
     <> Some (world p)
  /\ computePortalTravelLocation (computePortalTravelLocation p)
     = computePortalTravelLocation p.
Proof.
  unfold complete, computePortalTravelLocation.
  destruct (x p) as [px |] eqn:Ex, (y p) as [py |] eqn:Ey,
           (z p) as [pz |] eqn:Ez;
    cbn [travel set_travel x y z world];
    rewrite ?Ex, ?Ey, ?Ez;
    (split; [try discriminate; reflexivity |]);
    (split; [try discriminate |]);
    try (split; [discriminate | reflexivity]).
  - intros _. unfold convertCoords.
    destruct (world p =? WORLD_OVERWORLD) eqn:Ew.
    + apply String.eqb_eq in Ew. rewrite Ew. cbn. eauto 6.
    + cbn [andb]. destruct (_ && _); cbn; eauto 6.
  - split; [| reflexivity]. cbn.
    destruct (world p =? WORLD_OVERWORLD) eqn:Ew.
    + apply String.eqb_eq in Ew. rewrite Ew. discriminate.
    + apply String.eqb_neq in Ew. congruence.
Qed.

Lemma travel_location_shape_witness :
  exists tx tz w,
    travel (computePortalTravelLocation station)
    = mkTravel (Some tx) (Some (fl 74)) (Some tz) (Some w)
    /\ (w = WORLD_OVERWORLD \/ w = WORLD_NETHER).
Proof.
  exact (proj1 (proj2 (travel_location_shape station)) eq_refl).
Defined.

(** ** The sweep, further *)

Lemma computePortalTravelLocation_same_input (p : portal) :
  same_input (computePortalTravelLocation p) p.
Proof.
  pose proof (computePortalTravelLocation_keeps p) as K. simpl in K.
  destruct K as (Hn & Hd & Hx & Hy & Hz & Hw & _).
  repeat split; assumption.
Qed.

Lemma computePortalTravelLocation_respects (a b : portal) :
  same_input a b ->
  travel (computePortalTravelLocation a)
  = travel (computePortalTravelLocation b).
Proof.
  intros ((_ & Hx & Hy & Hz & Hw) & _).
  unfold computePortalTravelLocation. rewrite Hx, Hy, Hz, Hw.
  destruct (x b), (y b), (z b); reflexivity.
Qed.

Lemma computePortalTravelLocation_twice (p : portal) :
  computePortalTravelLocation (computePortalTravelLocation p)
  = computePortalTravelLocation p.
Proof.
  unfold computePortalTravelLocation.
  destruct (x p) as [px |] eqn:Ex, (y p) as [py |] eqn:Ey,
           (z p) as [pz |] eqn:Ez;
    cbn [set_travel x y z world]; rewrite ?Ex, ?Ey, ?Ez; reflexivity.
Qed.

Lemma travel_world_not_own (p : portal) :
  travel_world (travel (computePortalTravelLocation p))
  <> Some (world (computePortalTravelLocation p)).
Proof.
  unfold computePortalTravelLocation.
  destruct (x p), (y p), (z p); cbn; try discriminate.
  destruct (world p =? WORLD_OVERWORLD) eqn:Ew.
  - apply String.eqb_eq in Ew. rewrite Ew. discriminate.
  - apply String.eqb_neq in Ew. congruence.
Qed.

Lemma computeClosestPortal_travel (l : list portal) (a b : portal)
    (index : nat) :
  travel a = travel b ->
  computeClosestPortal l a index = computeClosestPortal l b index.
Proof.
  intro H. unfold computeClosestPortal. rewrite H. reflexivity.
Qed.

Lemma mapi_from_related (R : portal -> portal -> Prop)
    (F G : nat -> portal -> portal) (l1 l2 : list portal) :
  Forall2 R l1 l2 ->
  (forall i a b, R a b -> F i a = G i b) ->
  forall i, mapi_from F i l1 = mapi_from G i l2.
Proof.
  intros H HF. induction H as [| a b l1 l2 Hab _ IH]; intro i; simpl;
    [reflexivity |].
  rewrite (HF i a b Hab), IH. reflexivity.
Qed.

(** The travel locations of two lists with the same fields of the user are
    the same, and so are the derived lists. *)
Lemma derive_same_inputs (l' l : list portal) :
  Forall2 same_input l' l -> derive l' = derive l.
Proof.
  intro H. unfold derive.
  set (moved' := map computePortalTravelLocation l').
  set (moved := map computePortalTravelLocation l).
  assert (M : Forall2 (fun a b => same_input a b /\ travel a = travel b)
                      moved' moved).
  { subst moved' moved. induction H as [| a b l' l Hab _ IH]; simpl;
      constructor; [| exact IH].
    split; [| apply computePortalTravelLocation_respects; exact Hab].
    destruct (computePortalTravelLocation_same_input a) as [Pa Da].
    destruct (computePortalTravelLocation_same_input b) as [Pb Db].
    destruct Hab as [Pab Dab].
    destruct Pa as (? & ? & ? & ? & ?), Pb as (? & ? & ? & ? & ?),
             Pab as (? & ? & ? & ? & ?).
    repeat split; congruence. }
  assert (P : Forall2 same_position moved' moved).
  { clear -M. induction M as [| a b m' m [[Hab _] _] _ IH];
      constructor; assumption. }
  eapply mapi_from_related; [exact M |].
  intros i a b [[(Hn & Hx & Hy & Hz & Hw) Hd] Ht].
  rewrite (computeClosestPortal_same a i P).
  rewrite (@computeClosestPortal_travel moved a b i Ht).
  rewrite (computeTargetPortal_same a b P Hd Ht).
  unfold set_target, set_closest. cbn [name destination x y z world travel closest].
  rewrite Hn, Hd, Hx, Hy, Hz, Hw, Ht. reflexivity.
Qed.

Lemma derive_keeps_inputs (l : list portal) :
  Forall2 same_input (derive l) l.
Proof.
  unfold derive.
  set (moved := map computePortalTravelLocation l).
  generalize moved at 1 2. intro fixed.
  subst moved. generalize 0%nat.
  induction l as [| p rest IH]; intro i; simpl; constructor.
  - destruct (computePortalTravelLocation_same_input p) as [Pp Dp].
    split; [| exact Dp]. exact Pp.
  - apply IH.
Qed.

Lemma travelPass_twice (st : list slot) :
  travelPass (fst (travelPass st)) = travelPass st.
Proof.
  induction st as [| [p |] rest IH]; simpl; try reflexivity.
  destruct (travelPass rest) as [r c] eqn:E. simpl in *.
  rewrite IH, computePortalTravelLocation_twice. reflexivity.
Qed.

Lemma travelPass_keeps_inputs (st : list slot) :
  Forall2 same_slot (fst (travelPass st)) st.
Proof.
  induction st as [| [p |] rest IH]; simpl.
  - constructor.
  - destruct (travelPass rest) as [r c]. simpl in *.
    constructor; [| exact IH].
    apply computePortalTravelLocation_same_input.
  - constructor; [exact I |].
    clear IH. induction rest as [| [q |] rest IH]; constructor;
      try exact IH; simpl; auto.
    repeat split.
Qed.

Lemma records_map (st : list slot) (ps : list portal) :
  records st = Some ps -> st = map Some ps.
Proof.
  revert ps. induction st as [| [p |] rest IH]; intros ps H; simpl in H.
  - injection H as <-. reflexivity.
  - destruct (records rest) as [qs |]; [| discriminate H].
    injection H as <-. simpl. rewrite (IH qs eq_refl). reflexivity.
  - discriminate H.
Qed.

Lemma same_input_slots (l1 l2 : list portal) :
  Forall2 same_input l1 l2 -> Forall2 same_slot (map Some l1) (map Some l2).
Proof.
  induction 1; simpl; constructor; assumption.
Qed.

Lemma sweep_twice (st : list slot) :
  derivationSweep (fst (derivationSweep st)) = derivationSweep st.
Proof.
  destruct (records st) as [ps |] eqn:E.
  - rewrite (sweep_normal _ E). simpl.
    rewrite (sweep_normal _ (records_map_Some (derive ps))).
    rewrite (derive_same_inputs (derive_keeps_inputs ps)). reflexivity.
  - apply sweep_thrown_iff in E.
    destruct (derivationSweep st) as [st' c] eqn:U.
    simpl in E. subst c. simpl.
    pose proof (sweep_thrown_in_travelPass _ U) as T.
    pose proof (travelPass_twice st) as T2. rewrite T in T2. simpl in T2.
    unfold derivationSweep. rewrite T2. reflexivity.
Qed.

Lemma sweep_same_slots (st : list slot) :
  Forall2 same_slot (fst (derivationSweep st)) st.
Proof.
  destruct (records st) as [ps |] eqn:E.
  - rewrite (sweep_normal _ E). simpl.
    rewrite (records_map _ E).
    apply same_input_slots. apply derive_keeps_inputs.
  - apply sweep_thrown_iff in E.
    destruct (derivationSweep st) as [st' c] eqn:U.
    simpl in E. subst c. simpl.
    pose proof (sweep_thrown_in_travelPass _ U) as T.
    pose proof (travelPass_keeps_inputs st) as K.
    rewrite T in K. exact K.
Qed.

(** X18. Over an array without [null], what the three passes leave, and
    so what the dispatcher leaves whether or not a display throws
    afterwards, is [derive] of the list: although the passes rewrite the
    records in place while they run, every derived field is a function of
    the names, destinations, positions and worlds of the list alone. *)
Theorem sweep_is_derive (ps ps' : list portal) (pg pg' : page) :
  fst (derivationSweep (map Some ps)) = map Some (derive ps)
  /\ fst (fst (updateAllPortalCalculations (map Some ps) pg))
     = map Some (derive ps)
  /\ (Forall2 same_input ps' ps ->
      fst (fst (updateAllPortalCalculations (map Some ps') pg'))
      = fst (fst (updateAllPortalCalculations (map Some ps) pg))).
Proof.
  assert (S1 : forall l, fst (derivationSweep (map Some l))
                         = map Some (derive l)).
  { intro l. rewrite (sweep_normal _ (records_map_Some l)). reflexivity. }
  split; [apply S1 |].
  split; [rewrite dispatcher_array; apply S1 |].
  intro H. rewrite !dispatcher_array, !S1, (derive_same_inputs H).
  reflexivity.
Qed.

Lemma sweep_is_derive_witness :
  fst (fst (updateAllPortalCalculations (map Some [edited; station])
                                        (page_with [])))
  = fst (fst (updateAllPortalCalculations
                (map Some [at_ "A" "" 160 70 80 WORLD_OVERWORLD; station])
                (page_with (fresh_cards [None; None])))).
Proof.
  apply (proj2 (proj2 (sweep_is_derive
                  [at_ "A" "" 160 70 80 WORLD_OVERWORLD; station]
                  [edited; station]
                  (page_with (fresh_cards [None; None]))
                  (page_with [])))).
  repeat constructor.
Defined.

(** X19. Sweeping twice is sweeping once, with or without [null] in the
    array: a second sweep writes the values that are there and throws
    where the first one threw; and a second call of the dispatcher leaves
    the array the first call left, whatever the page. *)
Theorem sweep_idempotent (st : list slot) :
  derivationSweep (fst (derivationSweep st)) = derivationSweep st
  /\ forall pg pg',
       fst (fst (updateAllPortalCalculations
                   (fst (fst (updateAllPortalCalculations st pg))) pg'))
       = fst (fst (updateAllPortalCalculations st pg)).
Proof.
  split; [apply sweep_twice |].
  intros pg pg'. rewrite !dispatcher_array, sweep_twice. reflexivity.
Qed.

(** X20. A sweep never touches what the user entered: the array keeps its
    length, [null] stays [null], and every portal keeps its name,
    destination, position and world, whether the sweep completes or
    throws, and whether or not a display throws after it. *)
Theorem sweep_keeps_inputs (st : list slot) :
  Forall2 same_slot (fst (derivationSweep st)) st
  /\ forall pg,
       Forall2 same_slot (fst (fst (updateAllPortalCalculations st pg))) st.
Proof.
  split; [apply sweep_same_slots |].
  intro pg. rewrite dispatcher_array. apply sweep_same_slots.
Qed.

(** X21. In a derived list, a portal whose target distance is a number
    less than [Infinity] has a closest portal, and its distance is at most
    that of the target. *)
Theorem closest_no_farther_than_target (ps : list portal) (i : nat)
    (q : portal) (d : float) :
  nth_error (derive ps) i = Some q ->
  target_dist (target q) = TDist d ->
  (d <? Infinity)%js = true ->
  exists n d0,
    closest q = mkClosest (Some n) (Some d0)
    /\ (d0 <=? d)%js = true.
Proof.
  unfold derive. set (moved := map computePortalTravelLocation ps).
  rewrite nth_error_mapi_from. simpl.
  destruct (nth_error moved i) as [p1 |] eqn:Ei; [| discriminate].
  simpl. intro H. injection H as <-.
  cbn [target set_target closest set_closest].
  intros Ht Hfin.
  assert (Ht' : computeTargetPortal moved p1
                = mkTarget (target_name (computeTargetPortal moved p1))
                           (TDist d)).
  { destruct (computeTargetPortal moved p1); simpl in Ht. subst.
    reflexivity. }
  destruct (numeric_target _ _ Ht')
    as (t & tx & ty & tz & gx & gy & gz & Hf & _ & _ & Htx & Hty & Htz
        & Htw & Hx & Hy & Hz & Bx & Bz & Hd).
  destruct (find_some _ _ Hf) as [Hin _].
  destruct (In_nth_error _ _ Hin) as [j Hj].
  assert (Hji : j <> i).
  { intros ->. rewrite Hj in Ei. injection Ei as ->.
    subst moved. rewrite nth_error_map in Hj.
    destruct (nth_error ps i) as [p0 |]; [| discriminate Hj].
    simpl in Hj. injection Hj as <-.
    exact (travel_world_not_own p0 Htw). }
  assert (Hc : candidate tx ty tz (world t) i j t = Some d).
  { unfold candidate. apply Nat.eqb_neq in Hji. rewrite Hji.
    rewrite String.eqb_refl. cbn [negb]. rewrite Hx, Hy, Hz.
    rewrite Bx, Bz, Hd. reflexivity. }
  pose proof (describes_search tx ty tz (world t) i moved) as D.
  unfold computeClosestPortal. rewrite Htx, Htz, Hty, Htw.
  destruct (closest_loop tx (Some ty) tz (Some (world t)) i moved 0
                         (None, Infinity)) as [[best |] d0];
    cbn [describes] in D.
  - destruct D as (Hfin0 & k & Hk & Hck & Hmin).
    destruct (Hmin j t d Hj Hc) as [Hnot _].
    exists (name_or_unnamed best), d0. split; [reflexivity |].
    apply fleb_total; [| | exact Hnot].
    + exact (proj1 (fltb_not_nan _ _ Hfin)).
    + exact (proj1 (fltb_not_nan _ _ Hfin0)).
  - destruct D as [_ Hnone].
    rewrite (Hnone j t d Hj Hc) in Hfin. discriminate Hfin.
Qed.

Lemma closest_no_farther_than_target_witness :
  exists n d0,
    closest (set_target
               (set_closest commuter
                  (computeClosestPortal [commuter; station] commuter 0))
               (computeTargetPortal [commuter; station] commuter))
    = mkClosest (Some n) (Some d0)
    /\ (d0 <=? fl 5)%js = true.
Proof.
  apply (@closest_no_farther_than_target
           [at_ "A" "C" 80 70 80 WORLD_OVERWORLD; station] 0%nat).
  - reflexivity.
  - reflexivity.
  - reflexivity.
Defined.

(** A target distance that is the number [Infinity] comes without a
    closest portal: the squares of the differences overflow, and
    [Infinity] is not less than the [Infinity] the search starts from. *)
Example infinite_target_without_closest :
  match derive [at_ "A" "B" 80 70 80 WORLD_OVERWORLD; sky] with
  | a :: _ =>
      target a = mkTarget (Some "B") (TDist Infinity)
      /\ closest a = closest_unset
  | [] => False
  end.
Proof. split; reflexivity. Qed.

(** ** The output card *)

Lemma convertCoords_set (a b : float) (w1 w2 : string) :
  exists cx cz, convertCoords (Some a) (Some b) w1 w2
                = mkXZ (Some cx) (Some cz).
Proof.
  unfold convertCoords.
  destruct (_ && _); [eauto |]. destruct (_ && _); eauto.
Qed.

Lemma card_step_closest_step (cx cy cz : float) (tw : string)
    (index i : nat) (st : search_state) (p : portal) :
  i <> index ->
  closest_step cx (Some cy) cz (Some tw) index st p i
  = card_step cx cy cz tw st p.
Proof.
  intro Hi. unfold closest_step, card_step.
  apply Nat.eqb_neq in Hi. rewrite Hi.
  unfold world_is, maxRange, world_is. rewrite (String.eqb_sym tw).
  reflexivity.
Qed.

Lemma card_loop_closest_loop (cx cy cz : float) (tw : string)
    (index : nat) (l : list portal) :
  forall i st,
    (i + List.length l <= index)%nat ->
    closest_loop cx (Some cy) cz (Some tw) index l i st
    = card_loop cx cy cz tw l st.
Proof.
  induction l as [| p rest IH]; intros i st Hi; simpl; [reflexivity |].
  simpl in Hi. rewrite card_step_closest_step by lia.
  apply IH. lia.
Qed.

Lemma closest_loop_app (tx : float) (ty : coord) (tz : float)
    (tw : option string) (index : nat) (l1 l2 : list portal) :
  forall i st,
    closest_loop tx ty tz tw index (l1 ++ l2) i st
    = closest_loop tx ty tz tw index l2 (i + List.length l1)
                   (closest_loop tx ty tz tw index l1 i st).
Proof.
  induction l1 as [| p rest IH]; intros i st; simpl.
  - rewrite Nat.add_0_r. reflexivity.
  - rewrite IH. replace (S i + List.length rest)%nat
      with (i + S (List.length rest))%nat by lia.
    reflexivity.
Qed.

(** The closest fields of the card, whatever happens at the target. *)
Lemma card_closest_fields (x0 y0 z0 cx cz : float)
    (topWorld destName : string) (portals : list portal)
    (old : output_card) :
  convertCoords (Some x0) (Some z0) topWorld (opposite topWorld)
  = mkXZ (Some cx) (Some cz) ->
  let card := fst (updateOutputCard (Some x0) (Some y0) (Some z0)
                                    topWorld destName (map Some portals)
                                    old) in
  let st := card_loop cx y0 cz (opposite topWorld) portals
                      (None, Infinity) in
  closestName card
  = match fst st with
    | Some b => Plain (name_or_unnamed b)
    | None => Plain "Cannot Reach"
    end
  /\ closestDistance card
     = match fst st with
       | Some _ => Fixed2 (snd st)
       | None => Dash
       end.
Proof.
  intro Hc. unfold updateOutputCard. fold (opposite topWorld).
  rewrite Hc, records_map_Some. cbn [xz_x xz_z].
  destruct (card_loop cx y0 cz (opposite topWorld) portals
                      (None, Infinity)) as [best bd].
  destruct (find _ portals) as [t |]; [| split; reflexivity].
  destruct (x t); [| split; reflexivity].
  destruct (z t); [| destruct (y t); split; reflexivity].
  destruct (negb _); [split; reflexivity |].
  destruct (_ || _); [split; reflexivity |].
  destruct (distance3D _ _ _ _ _ _); split; reflexivity.
Qed.

(** X22. The card previews what adding the inputs gives: for three finite
    inputs, the closest portal and distance the output card shows are the
    closest name and distance the sweep derives for a portal with that
    position and world appended to the list; where the card shows "Cannot
    Reach", the appended portal has no closest portal. *)
Theorem output_card_previews_closest (x0 y0 z0 : float)
    (topWorld destName nm dst : string) (portals : list portal)
    (old : output_card) :
  let card := fst (updateOutputCard (Some x0) (Some y0) (Some z0)
                                    topWorld destName (map Some portals)
                                    old) in
  let new := fresh nm dst (Some x0) (Some y0) (Some z0) topWorld in
  exists q,
    nth_error (derive (portals ++ [new])) (List.length portals) = Some q
    /\ match closest q with
       | mkClosest (Some n) (Some d) =>
           closestName card = Plain n /\ closestDistance card = Fixed2 d
       | _ =>
           closestName card = Plain "Cannot Reach"
           /\ closestDistance card = Dash
       end.
Proof.
  intros card new.
  set (added := computePortalTravelLocation new).
  set (k := List.length portals).
  set (moved := map computePortalTravelLocation (portals ++ [new])).
  assert (Em : moved
               = (map computePortalTravelLocation portals ++ [added])%list)
    by (subst moved; rewrite map_app; reflexivity).
  assert (En : nth_error moved k = Some added).
  { rewrite Em. subst k. rewrite <- (length_map computePortalTravelLocation).
    rewrite nth_error_app2 by lia. rewrite Nat.sub_diag. reflexivity. }
  eexists. split.
  { unfold derive. fold moved. rewrite nth_error_mapi_from, En.
    reflexivity. }
  cbn [closest set_target set_closest Nat.add].
  assert (P : Forall2 same_position moved (portals ++ [added])).
  { rewrite Em. apply Forall2_app; [| apply same_position_all_refl].
    clear. induction portals as [| p rest IH]; simpl; constructor;
      [apply computePortalTravelLocation_same_input | exact IH]. }
  rewrite (computeClosestPortal_same added k P).
  destruct (convertCoords_set x0 z0 topWorld (opposite topWorld))
    as (cx & cz & Hc).
  destruct (@card_closest_fields x0 y0 z0 cx cz topWorld destName portals
              old Hc) as [Hn Hd].
  fold card in Hn, Hd.
  unfold computeClosestPortal.
  assert (Et : travel added
               = mkTravel (Some cx) (Some y0) (Some cz)
                          (Some (opposite topWorld))).
  { subst added new. unfold computePortalTravelLocation, fresh.
    cbn [x y z world set_travel travel]. fold (opposite topWorld).
    rewrite Hc. reflexivity. }
  rewrite Et. cbn [travel_x travel_y travel_z travel_world].
  rewrite closest_loop_app. cbn [closest_loop Nat.add].
  unfold closest_step at 1. fold k. rewrite Nat.eqb_refl.
  rewrite card_loop_closest_loop by (subst k; lia).
  destruct (card_loop cx y0 cz (opposite topWorld) portals
                      (None, Infinity)) as [[b |] bd];
    simpl in Hn, Hd |- *; split; assumption.
Qed.

(** X23. For a destination input that is not empty the card shows the
    target [computeTargetPortal] derives for a portal with the inputs as
    position, world and destination: dashes for an unset target, the name
    with "Cannot Reach", or the name with the distance; where the derived
    target has a name and a [null] distance the card gets the name and
    throws, leaving the distance text as it was. *)
Theorem output_card_shows_target (x0 y0 z0 : float)
    (topWorld destName nm : string) (portals : list portal)
    (old : output_card) :
  destName <> "" ->
  let shown := updateOutputCard (Some x0) (Some y0) (Some z0)
                                topWorld destName (map Some portals)
                                old in
  let added :=
    computePortalTravelLocation
      (fresh nm destName (Some x0) (Some y0) (Some z0) topWorld) in
  match computeTargetPortal portals added with
  | mkTarget None _ =>
      targetName (fst shown) = Dash /\ targetDistance (fst shown) = Dash
      /\ snd shown = Normal
  | mkTarget (Some n) CannotReach =>
      targetName (fst shown) = Plain n
      /\ targetDistance (fst shown) = Plain "Cannot Reach"
      /\ snd shown = Normal
  | mkTarget (Some n) (TDist d) =>
      targetName (fst shown) = Plain n
      /\ targetDistance (fst shown) = Fixed2 d
      /\ snd shown = Normal
  | mkTarget (Some n) TNull =>
      targetName (fst shown) = Plain n
      /\ targetDistance (fst shown) = targetDistance old
      /\ snd shown = Thrown
  end.
Proof.
  intros Hd shown added. subst shown added.
  apply String.eqb_neq in Hd.
  destruct (convertCoords_set x0 z0 topWorld (opposite topWorld))
    as (cx & cz & Hc).
  unfold updateOutputCard, computeTargetPortal, computePortalTravelLocation,
    fresh.
  cbn [x y z world destination travel set_travel
       travel_x travel_y travel_z travel_world].
  fold (opposite topWorld). rewrite Hc, Hd, records_map_Some.
  cbn [xz_x xz_z].
  destruct (card_loop cx y0 cz (opposite topWorld) portals
                      (None, Infinity)) as [best bd].
  destruct (find _ portals) as [t |]; [| repeat split].
  destruct (x t) as [gx |]; [| repeat split].
  destruct (z t) as [gz |]; [| repeat split].
  unfold world_is, maxRange, world_is.
  rewrite (String.eqb_sym (opposite topWorld) (world t)).
  destruct (world t =? opposite topWorld); cbn [negb]; [| repeat split].
  destruct (_ || _); [repeat split |].
  destruct (y t) as [gy |]; cbv [distance3D]; repeat split.
Qed.

Lemma output_card_shows_target_witness :
  targetName
    (fst (updateOutputCard (Some (fl 80)) (Some (fl 70)) (Some (fl 80))
                           WORLD_OVERWORLD "C"
                           (map Some [commuter; station]) dashes))
  = Plain "C".
Proof.
  exact (proj1 (@output_card_shows_target
                  (fl 80) (fl 70) (fl 80) WORLD_OVERWORLD "C" "A"
                  [commuter; station] dashes ltac:(discriminate))).
Defined.

(** X24. With an empty destination input the card still looks a target up:
    it shows the first portal without a name, if that portal has [x] and
    [z], where [computeTargetPortal] gives a portal with an empty
    destination no target at all. *)
Theorem output_card_resolves_unnamed_target (x0 y0 z0 gx gz : float)
    (topWorld nm : string) (portals : list portal) (t : portal)
    (old : output_card) :
  find (fun p => name p =? "") portals = Some t ->
  x t = Some gx -> z t = Some gz ->
  targetName (fst (updateOutputCard (Some x0) (Some y0) (Some z0)
                                    topWorld "" (map Some portals) old))
  = Plain ""
  /\ computeTargetPortal
       portals
       (computePortalTravelLocation
          (fresh nm "" (Some x0) (Some y0) (Some z0) topWorld))
     = target_unset.
Proof.
  intros Hf Hx Hz. split.
  - pose proof (find_some _ _ Hf) as [_ Hn]. apply String.eqb_eq in Hn.
    destruct (convertCoords_set x0 z0 topWorld (opposite topWorld))
      as (cx & cz & Hc).
    unfold updateOutputCard. fold (opposite topWorld).
    rewrite Hc, records_map_Some, Hf, Hx, Hz. cbn [xz_x xz_z].
    destruct (card_loop _ _ _ _ _ _) as [best bd].
    destruct (negb _); [rewrite Hn; reflexivity |].
    destruct (_ || _); [rewrite Hn; reflexivity |].
    destruct (distance3D _ _ _ _ _ _); rewrite Hn; reflexivity.
  - unfold computeTargetPortal, computePortalTravelLocation, fresh.
    reflexivity.
Qed.

Lemma output_card_resolves_unnamed_target_witness :
  targetName (fst (updateOutputCard (Some (fl 80)) (Some (fl 70))
                                    (Some (fl 80)) WORLD_OVERWORLD ""
                                    (map Some neighbourhood) dashes))
  = Plain "".
Proof.
  exact (proj1 (@output_card_resolves_unnamed_target
                  (fl 80) (fl 70) (fl 80) (fl 11) (fl 10)
                  WORLD_OVERWORLD "A" neighbourhood
                  unnamed_east dashes eq_refl eq_refl eq_refl)).
Defined.



(** At the rounded edge of the square the card throws too: with the
    Nether input x = 0.1 and the target "T" at x = 128.8 without [y], the
    computed difference is 128. *)
Example output_card_throws_at_the_rounded_edge :
  snd (updateOutputCard (Some (dec 1 10)) (Some (fl 64)) (Some (fl 0))
                        WORLD_NETHER "T"
                        [Some (fresh "T" "" (Some (dec 1288 10)) None
                                     (Some (fl 0)) WORLD_OVERWORLD)]
                        dashes)
  = Thrown.
Proof. reflexivity. Qed.
